(** * Placeholder engine of the poster generator ([templates.py])

    A shallow embedding of the template catalog and of the two functions
    [extract_placeholders] and [replace_placeholders], followed by the
    properties of the specification that concern them.

    Python strings are modelled as lists of characters.  Every function
    below only ever compares characters for equality, so the character
    type is immaterial; [ascii] is used, and a string holding letters
    beyond ASCII is carried as the octets of its UTF-8 form, in which
    the two bracket characters never occur inside a longer sequence.

    A Python [dict] iterates in insertion order and holds each key once.
    [replace_placeholders] walks [values.items()], so a mapping is an
    association list in insertion order. *)

From Stdlib Require Import String Ascii List Bool Arith Lia Permutation.
Import ListNotations.
Open Scope string_scope.
Open Scope list_scope.

(** ** Strings *)

Definition str := list ascii.

Coercion list_ascii_of_string : string >-> list.

Definition lbr : ascii := "["%char.
Definition rbr : ascii := "]"%char.

Definition str_dec : forall a b : str, {a = b} + {a <> b} :=
  list_eq_dec ascii_dec.

Definition str_eqb (a b : str) : bool :=
  if str_dec a b then true else false.

(** One [key: value] item of a dict. *)
Definition entry (k v : str) : str * str := (k, v).

(** ** The fragment of [re] that the source uses

    The pattern of [extract_placeholders] is [\[([^\]]+)\]]: an escaped
    literal, a capture group, a negated character set and the greedy
    one-or-more quantifier applied to that set. *)

Inductive cset : Type :=
| Lit (c : ascii)                (* a literal character, as in [\[] *)
| NoneOf (cs : list ascii).      (* a negated set, as in [[^\]]] *)

Definition cset_accepts (k : cset) (c : ascii) : bool :=
  match k with
  | Lit a => Ascii.eqb a c
  | NoneOf cs => negb (existsb (Ascii.eqb c) cs)
  end.

Inductive regex : Type :=
| One (k : cset)
| Plus (k : cset)                (* greedy [k+] *)
| Group (r : regex)              (* capturing parentheses *)
| Cat (r1 r2 : regex).

Section Matcher.
Context {A : Type}.

(** Greedy repetition with backtracking: take as many characters of
    the set as possible, and give one back at a time while the rest
    of the pattern fails. *)
Fixpoint greedy (k : cset) (s : str) (cont : str -> option A) : option A :=
  match s with
  | c :: s' =>
      if cset_accepts k c then
        match greedy k s' cont with
        | Some res => Some res
        | None => cont s
        end
      else cont s
  | [] => cont []
  end.

(** [rmatch r s caps cont] matches [r] at the head of [s]; [caps] are
    the groups closed so far, [cont] is the rest of the pattern and
    receives the unread input. *)
Fixpoint rmatch (r : regex) (s : str) (caps : list str)
         (cont : str -> list str -> option A) : option A :=
  match r with
  | One k =>
      match s with
      | c :: s' => if cset_accepts k c then cont s' caps else None
      | [] => None
      end
  | Plus k =>
      match s with
      | c :: s' =>
          if cset_accepts k c then greedy k s' (fun t => cont t caps)
          else None
      | [] => None
      end
  | Group r1 =>
      rmatch r1 s caps
        (fun t caps' => cont t (caps' ++ [firstn (length s - length t) s]))
  | Cat r1 r2 =>
      rmatch r1 s caps (fun t caps' => rmatch r2 t caps' cont)
  end.
End Matcher.

(** A match anchored at the head of [s]: the captured groups and the
    input left after the match. *)
Definition match_here (r : regex) (s : str) : option (list str * str) :=
  rmatch r s [] (fun t caps => Some (caps, t)).

(** The scan of [re.findall]: leftmost match first, then on from the end
    of that match; where nothing matches, on from the next character.
    [skip] counts the characters of the last match still to be passed
    (an empty match moves on by one character). *)
Fixpoint scan_from (r : regex) (skip : nat) (s : str) : list (list str) :=
  match skip with
  | S n =>
      match s with
      | [] => []
      | _ :: s' => scan_from r n s'
      end
  | 0 =>
      match match_here r s with
      | Some (caps, t) =>
          caps :: match s with
                  | [] => []
                  | _ :: s' => scan_from r (length s - length t - 1) s'
                  end
      | None =>
          match s with
          | [] => []
          | _ :: s' => scan_from r 0 s'
          end
      end
  end.

(** [re.findall] for a pattern with one group returns the text of that
    group for every match. *)
Definition re_findall (r : regex) (s : str) : list str :=
  map (fun caps => hd [] caps) (scan_from r 0 s).

(** ** [str.replace]

    All occurrences of [old], leftmost first and not overlapping, are
    replaced by [new]; scanning resumes after the occurrence, never
    inside the inserted text.  An empty [old] matches between any two
    characters and at both ends. *)

Fixpoint starts_with (p s : str) : bool :=
  match p, s with
  | [], _ => true
  | a :: p', b :: s' => Ascii.eqb a b && starts_with p' s'
  | _ :: _, [] => false
  end.

Fixpoint replace_from (old new : str) (skip : nat) (s : str) : str :=
  match s with
  | [] => []
  | c :: s' =>
      match skip with
      | S n => replace_from old new n s'
      | 0 =>
          if starts_with old s
          then new ++ replace_from old new (length old - 1) s'
          else c :: replace_from old new 0 s'
      end
  end.

Definition str_replace (s old new : str) : str :=
  match old with
  | [] => new ++ flat_map (fun c => c :: new) s
  | _ :: _ => replace_from old new 0 s
  end.

(** ** The template catalog *)

Definition template_male_regular : string :=
"Create a 4:5 poster in 4K resolution for a Kerala Local Body Election Campaign, using the uploaded candidate photo.

Candidate Instructions

Recreate the same person from the uploaded reference photo with 100% accurate facial identity. Show the candidate standing, wearing a light blue shirt (full sleeves folded to half) and a Kerala mundu. Expression: pleasant, clean, well-groomed, matching the face in the reference. Main pose: candidate waving his hand.

Style: youthful, trendy, modern Kerala election design.

Poster Layout & Design

Follow Malayalam political-poster aesthetics.

Use clear Malayalam typography.

Do NOT show any labels.

All text must be in Malayalam.

Add the following Malayalam text exactly as specified order:

1. Subheading (Regular font, lesser size than title):

[Panchayath/Constituency Name] 

2. Title (Bold, with breathing space above and below):

[Candidate Name]

3. Floating Headline 2 (Condensed sans-serif, lesser size than title ):

നമ്മുടെ [Party Name Initials] സ്ഥാനാർത്ഥിയെ [Symbol Name] അടയാളത്തിൽ വോട്ട് ചെയ്ത് വിജയിപ്പിക്കുക.

4. side Floating tagline in stylish manner with calligraphic decorations, font size less than title, Italic, handwritten style:

[Campaign Tagline]

5. Bottom Footer Section

Left side, Display Party Name: [Full Party Name]

Right side Display Symbol line, in outlined rounded corner box:

നമ്മുടെ ചിഹ്നം place one [Symbol Description] icon next to this text only

Design Instructions:
Malayalam text must be beautifully typeset. Maintain a clean, real-world election poster look with minimal background. Gentle shadows. Add delicate shapes, soft gradients, and a calm, balanced trendy composition.".

Definition template_female_regular : string :=
"Create a 4:5 poster in 4K resolution for a Kerala Local Body Election Campaign, using the uploaded candidate photo.

Candidate Instructions

Recreate the same person from the uploaded reference photo with 100% accurate facial identity. Show the candidate standing and wearing a plain blue Indian saree typically used in election campaigning. The expression should be pleasant, confident, clean, and well-groomed, matching the look of the reference. The main pose should show the candidate waving her hand. Keep ornaments minimal—small earrings, a thin neck chain, one or two simple bangles, and a wristwatch.

Poster Layout & Design

Follow Malayalam political-poster aesthetics.

Use clear Malayalam typography.

Do NOT show any labels.

All text must be in Malayalam.

Add the following Malayalam text exactly as specified order:

1. Subheading (Regular font, lesser size than title):

[Panchayath/Constituency Name] ഗ്രാമ പഞ്ചായത്ത് ഒന്നാം വാർഡ് സ്ഥാനാർത്ഥി

2. Title (Bold, with breathing space above and below):

[Candidate Name]

3. Floating Headline 2 (Condensed sans-serif, lesser size than title ):

നമ്മുടെ [Party Name Initials] സ്ഥാനാർത്ഥിയെ [Symbol Name] അടയാളത്തിൽ വോട്ട് ചെയ്ത് വിജയിപ്പിക്കുക.

4. side Floating tagline in stylish manner with calligraphic decorations, font size less than title, Italic, handwritten style:

[Campaign Tagline]

5. Bottom Footer Section

Left side, Display Party Name: [Full Party Name]

Right side Display Symbol line, in outlined rounded corner box:

നമ്മുടെ ചിഹ്നം place one [Symbol Description] icon next to this text only

Design Instructions:
Malayalam text must be beautifully typeset. Maintain a clean, real-world election poster look with minimal background. Gentle shadows. Add delicate shapes, soft gradients, and a calm, balanced trendy composition.".

Definition template_male_caricature : string :=
"Create a 4:5 poster in 4K resolution for a Kerala Local Body Election Campaign, using the uploaded candidate photo.

Candidate Instructions

Recreate the same person from the uploaded reference photo with 100% accurate facial identity. Show the candidate standing, wearing a light blue shirt (full sleeves folded to half) and a Kerala mundu. Expression: pleasant, clean, well-groomed, matching the face in the reference. Main pose: candidate waving his hand.

Style: youthful, trendy, modern Kerala election design.

Poster Layout & Design

Follow Malayalam political-poster aesthetics.

Use clear Malayalam typography.

Do NOT show any labels.

All text must be in Malayalam.

Add the following Malayalam text exactly as specified order:

1. Subheading (Regular font, lesser size than title):

[Panchayath/Constituency Name] സ്ഥാനാർത്ഥി

2. Title (Bold, with breathing space above and below):

[Candidate Name]

3. Floating Headline 2 (Condensed sans-serif, lesser size than title ):

നമ്മുടെ [Party Name Initials] സ്ഥാനാർത്ഥിയെ [Symbol Name] അടയാളത്തിൽ വോട്ട് ചെയ്ത് വിജയിപ്പിക്കുക.

4. side Floating tagline in stylish manner with calligraphic decorations, font size less than title, Italic, handwritten style:

[Campaign Tagline]

5. Bottom Footer Section

Left side, Display Party Name: [Full Party Name]

Right side Display Symbol line, in outlined rounded corner box:

നമ്മുടെ ചിഹ്നം place one [Symbol Description] icon next to this text only

Design Instructions

Caricature-style election poster with a clean, polished, cartoonish illustration of the candidate. Use a minimal real-world election poster aesthetic with smooth lighting and gentle, natural shadows. All Malayalam text must be beautifully typeset, with modern political-poster typography. Use a calm, balanced layout with soft gradients, delicate abstract shapes, and thoughtfully used negative space. Maintain a youthful, trendy composition without clutter.".

Definition template_female_caricature : string :=
"Create a 4:5 poster in 4K resolution for a Kerala Local Body Election Campaign, using the uploaded candidate photo.

Candidate Instructions

Recreate the same person from the uploaded reference photo with 100% accurate facial identity. Show the candidate standing and wearing a plain blue Indian saree typically used in election campaigning. The expression should be pleasant, confident, clean, and well-groomed, matching the look of the reference. The main pose should show the candidate waving her hand. Keep ornaments minimal—small earrings, a thin neck chain, one or two simple bangles, and a wristwatch.

Poster Layout & Design

Follow Malayalam political-poster aesthetics.

Use clear Malayalam typography.

Do NOT show any labels.

All text must be in Malayalam.

Add the following Malayalam text exactly as specified order:

1. Subheading (Regular font, lesser size than title):

[Panchayath/Constituency Name] ഗ്രാമ പഞ്ചായത്ത് ഒന്നാം വാർഡ് സ്ഥാനാർത്ഥി

2. Title (Bold, with breathing space above and below):

[Candidate Name]

3. Floating Headline 2 (Condensed sans-serif, lesser size than title ):

നമ്മുടെ [Party Name Initials] സ്ഥാനാർത്ഥിയെ [Symbol Name] അടയാളത്തിൽ വോട്ട് ചെയ്ത് വിജയിപ്പിക്കുക.

4. side Floating tagline in stylish manner with calligraphic decorations, font size less than title, Italic, handwritten style:

[Campaign Tagline]

5. Bottom Footer Section

Left side, Display Party Name: [Full Party Name]

Right side Display Symbol line, in outlined rounded corner box:

നമ്മുടെ ചിഹ്നം place one [Symbol Description] icon next to this text only

Design Instructions

Caricature-style election poster with a clean, polished, cartoonish illustration of the candidate. Use a minimal real-world election poster aesthetic with smooth lighting and gentle, natural shadows. All Malayalam text must be beautifully typeset, with modern political-poster typography. Use a calm, balanced layout with soft gradients, delicate abstract shapes, and thoughtfully used negative space. Maintain a youthful, trendy composition without clutter.".

Definition TEMPLATES : list (str * str) :=
  [ entry "Male Candidate - Regular Photo" template_male_regular
  ; entry "Female Candidate - Regular Photo" template_female_regular
  ; entry "Male Candidate - Caricature Style" template_male_caricature
  ; entry "Female Candidate - Caricature Style" template_female_caricature ].

(** ** [templates.py] *)

(** [pattern = r'\[([^\]]+)\]'] *)
Definition pattern : regex :=
  Cat (One (Lit lbr)) (Cat (Group (Plus (NoneOf [rbr]))) (One (Lit rbr))).

(** [p in seen] *)
Definition mem (p : str) (seen : list str) : bool := existsb (str_eqb p) seen.

(** The loop of [extract_placeholders], with its two variables. *)
Fixpoint unique_loop (placeholders seen unique_placeholders : list str)
  : list str :=
  match placeholders with
  | [] => unique_placeholders
  | p :: rest =>
      if mem p seen then unique_loop rest seen unique_placeholders
      else unique_loop rest (p :: seen) (unique_placeholders ++ [p])
  end.

Definition extract_placeholders (template : str) : list str :=
  let placeholders := re_findall pattern template in
  unique_loop placeholders [] [].

(** [f'[{placeholder}]'] *)
Definition token (placeholder : str) : str := lbr :: placeholder ++ [rbr].

Definition replace_placeholders (template : str) (values : list (str * str))
  : str :=
  fold_left
    (fun result '(placeholder, value) =>
       str_replace result (token placeholder) value)
    values template.

Definition get_template_names : list str := map fst TEMPLATES.

(** [dict.get(key, default)] *)
Fixpoint dict_get (d : list (str * str)) (key default : str) : str :=
  match d with
  | [] => default
  | (k, v) :: d' => if str_eqb k key then v else dict_get d' key default
  end.

Definition get_template (name : str) : str := dict_get TEMPLATES name "".

(** ** Vocabulary of the specification *)

(** The pairing rule in the words of the specification: scan from the
    left; a [[] opens a placeholder, the first []] after it closes it,
    and the text in between, whatever it is, is the name.  [open] holds
    the text read since the last unclosed [[]. *)
Fixpoint pairs_from (open : option str) (s : str) : list str :=
  match s with
  | [] => []
  | c :: s' =>
      match open with
      | None =>
          if Ascii.eqb c lbr then pairs_from (Some []) s'
          else pairs_from None s'
      | Some acc =>
          if Ascii.eqb c rbr then acc :: pairs_from None s'
          else pairs_from (Some (acc ++ [c])) s'
      end
  end.

Definition bracket_pairs (s : str) : list str := pairs_from None s.

Definition nonempty (n : str) : bool :=
  match n with
  | [] => false
  | _ :: _ => true
  end.

(** [t] is a substring of [s]. *)
Definition occurs_in (t s : str) : Prop := exists a b, s = a ++ t ++ b.

(** The keys of a mapping, in insertion order. *)
Definition keys (values : list (str * str)) : list str := map fst values.

(** No placeholder of the body has an opening bracket in its name. *)
Definition no_nested_open (body : str) : Prop :=
  forall n, In n (extract_placeholders body) -> ~ In lbr n.

(** A string without bracket syntax. *)
Definition bracket_free (v : str) : Prop := ~ In lbr v /\ ~ In rbr v.

(** No opening bracket of [a] is left open at the end of [a]: every [[]
    of [a] has a []] behind it in [a].  A token that follows such a
    text starts a fresh placeholder. *)
Definition closed (a : str) : Prop :=
  forall a1 a2, a = a1 ++ lbr :: a2 -> In rbr a2.

(** The same, on the bracket pairs of the pairing rule. *)
Definition flat (s : str) : Prop :=
  forall n, In n (bracket_pairs s) -> ~ In lbr n.

(** One pass of the loop of [replace_placeholders]. *)
Definition pass (result : str) (item : str * str) : str :=
  str_replace result (token (fst item)) (snd item).

(** An entry whose name holds no closing bracket and whose value holds
    no opening bracket. *)
Definition plain (item : str * str) : Prop :=
  ~ In rbr (fst item) /\ ~ In lbr (snd item).

(** Decision procedures for closed instances. *)

Definition has (c : ascii) (s : str) : bool := existsb (Ascii.eqb c) s.

Definition no_nested_openb (body : str) : bool :=
  forallb (fun n => negb (has lbr n)) (extract_placeholders body).

Definition plainb (item : str * str) : bool :=
  negb (has rbr (fst item)) && negb (has lbr (snd item)).



Definition bracket_freeb (v : str) : bool :=
  negb (has lbr v) && negb (has rbr v).

(** ** [app.py]: the form, the preview and the gates of the script

    The script keeps its state in [st.session_state], a dict, and builds
    the mapping [placeholder_values] in a loop over the extracted
    placeholders.  Dicts are association lists in insertion order, as
    above; assigning to a key that is present keeps its position. *)

Section Dict.
Context {V : Type}.

(** [key in d], [d[key]] *)
Fixpoint dict_find (d : list (str * V)) (key : str) : option V :=
  match d with
  | [] => None
  | (k, v) :: d' => if str_eqb k key then Some v else dict_find d' key
  end.

(** [d[key] = v] *)
Fixpoint dict_set (d : list (str * V)) (key : str) (v : V)
  : list (str * V) :=
  match d with
  | [] => [(key, v)]
  | (k, v') :: d' =>
      if str_eqb k key then (k, v) :: d' else (k, v') :: dict_set d' key v
  end.

(** [del d[key]], for a key that is present *)
Fixpoint dict_del (d : list (str * V)) (key : str) : list (str * V) :=
  match d with
  | [] => []
  | (k, v) :: d' => if str_eqb k key then d' else (k, v) :: dict_del d' key
  end.
End Dict.

(** What the session state holds: flags, strings, and the list of the
    generated images, each image an object of its own. *)
Inductive value : Type :=
| VBool (b : bool)
| VStr (s : str)
| VList (items : list nat).

(** [not v] is false *)
Definition truthy (v : value) : bool :=
  match v with
  | VBool b => b
  | VStr s => nonempty s
  | VList [] => false
  | VList (_ :: _) => true
  end.

(** [if key not in st.session_state: st.session_state[key] = v] *)
Definition set_if_absent (session_state : list (str * value)) (key : str)
           (v : value) : list (str * value) :=
  match dict_find session_state key with
  | Some _ => session_state
  | None => dict_set session_state key v
  end.

(** The initialisation at the top of the script, run again on every
    interaction.  [configured_api_key] is what the secrets or the
    environment hold for [GEMINI_API_KEY]. *)
Definition init_session_state (configured_api_key : value)
           (session_state : list (str * value)) : list (str * value) :=
  let s1 := set_if_absent session_state "generated_images" (VList []) in
  let s2 := set_if_absent s1 "api_key" configured_api_key in
  set_if_absent s2 "authenticated" (VBool false).

(** What [check_password] returns; [None] is the [AttributeError] of
    [st.session_state.authenticated] when the key is absent. *)
Definition check_password (session_state : list (str * value))
  : option bool :=
  option_map truthy (dict_find session_state "authenticated").

Definition DEFAULT_PASSWORD : str := "imagegen2024".

(** [v == s] for a string [s] *)
Definition value_eq_str (v : value) (s : str) : bool :=
  match v with
  | VStr t => str_eqb t s
  | VBool _ | VList _ => false
  end.

(** The callback of the password field.  [None] is the [KeyError] of
    [st.session_state["password"]] when the key is absent. *)
Definition password_entered (session_state : list (str * value))
  : option (list (str * value)) :=
  match dict_find session_state "password" with
  | None => None
  | Some entered =>
      if value_eq_str entered DEFAULT_PASSWORD
      then Some (dict_del
                   (dict_set session_state "authenticated" (VBool true))
                   "password")
      else Some (dict_set session_state "authenticated" (VBool false))
  end.

(** The loop that fills [placeholder_values].  [typed placeholder] is
    what [st.text_input] returns for the field of that placeholder:
    the field has the key [placeholder_<name>], so its content is a
    function of the name. *)
Fixpoint placeholder_values_loop (placeholders : list str)
         (typed : str -> str) (placeholder_values : list (str * str))
  : list (str * str) :=
  match placeholders with
  | [] => placeholder_values
  | placeholder :: rest =>
      placeholder_values_loop rest typed
        (dict_set placeholder_values placeholder (typed placeholder))
  end.

Definition placeholder_values_of (template : str) (typed : str -> str)
  : list (str * str) :=
  let placeholders := extract_placeholders template in
  placeholder_values_loop placeholders typed [].

Definition preview_prompt (template : str) (typed : str -> str) : str :=
  replace_placeholders template (placeholder_values_of template typed).

(** The checks behind the generate button, in the order of the
    [if]/[elif] chain.  A string or a list is true when it is not
    empty. *)
Inductive gate : Type :=
| ErrorApiKey
| ErrorNoImages
| WarningEmptyFields
| Generate.

Definition generate_gate {Img : Type} (api_key : str)
           (images_to_use : list Img) (placeholder_values : list (str * str))
  : gate :=
  if negb (nonempty api_key) then ErrorApiKey
  else
    match images_to_use with
    | [] => ErrorNoImages
    | _ :: _ =>
        if negb (forallb nonempty (map snd placeholder_values))
        then WarningEmptyFields
        else Generate
    end.

(** The thumbnails: [st.columns(min(len(images_to_use), 3))] and
    [enumerate(list(images_to_use)[:3])]; the note below them counts
    [len(images_to_use) - 3] further images. *)
Definition enumerate {X : Type} (l : list X) : list (nat * X) :=
  combine (seq 0 (length l)) l.

Definition thumbnail_columns {Img : Type} (images_to_use : list Img) : nat :=
  Nat.min (length images_to_use) 3.

Definition thumbnails {Img : Type} (images_to_use : list Img)
  : list (nat * Img) :=
  enumerate (firstn 3 images_to_use).

(** ** Bodies built from text and fields *)

(** A piece of a body: text without an opening bracket, or the token of
    a name. *)
Inductive segment : Type :=
| Text (t : str)
| Field (n : str).

Definition render_segment (g : segment) : str :=
  match g with
  | Text t => t
  | Field n => token n
  end.

Definition render (segs : list segment) : str := flat_map render_segment segs.

Definition well_formed (g : segment) : Prop :=
  match g with
  | Text t => ~ In lbr t
  | Field n => bracket_free n
  end.

(** The names of the fields, in order. *)
Definition field_names (segs : list segment) : list str :=
  flat_map (fun g => match g with Text _ => [] | Field n => [n] end) segs.

(** A field takes the value of its name, and keeps its token when the
    mapping has none: [values.get(n, '[n]')]. *)
Definition fill_segment (values : list (str * str)) (g : segment) : str :=
  match g with
  | Text t => t
  | Field n => dict_get values n (token n)
  end.

(** What one pass makes of a segment: the fields of the entry become
    text. *)
Definition fill_one (k v : str) (g : segment) : segment :=
  match g with
  | Text t => Text t
  | Field n => if str_eqb n k then Text v else Field n
  end.

(** What the preview shows for a segment: a field with a name shows
    what was typed for it; the empty pair is no placeholder and stays. *)
Definition fill_typed (typed : str -> str) (g : segment) : str :=
  match g with
  | Text t => t
  | Field [] => token []
  | Field n => typed n
  end.


(** * Properties *)

(** ** Characters, names and membership *)

Lemma lbr_neq_rbr : lbr <> rbr.
Proof. discriminate. Qed.

Lemma str_eqb_eq (a b : str) : str_eqb a b = true <-> a = b.
Proof.
  unfold str_eqb. destruct (str_dec a b); split; congruence.
Qed.

Lemma str_eqb_refl (a : str) : str_eqb a a = true.
Proof. now apply str_eqb_eq. Qed.

Lemma str_eqb_neq (a b : str) : str_eqb a b = false <-> a <> b.
Proof.
  unfold str_eqb. destruct (str_dec a b); split; congruence.
Qed.

Lemma mem_In (p : str) (l : list str) : mem p l = true <-> In p l.
Proof.
  unfold mem. rewrite existsb_exists. split.
  - intros (x & Hx & He). apply str_eqb_eq in He. now subst.
  - intros H. exists p. split; [assumption | apply str_eqb_refl].
Qed.

Lemma mem_not_In (p : str) (l : list str) : mem p l = false <-> ~ In p l.
Proof.
  rewrite <- mem_In. destruct (mem p l); split; congruence.
Qed.

Lemma accepts_lit (a c : ascii) : cset_accepts (Lit a) c = Ascii.eqb a c.
Proof. reflexivity. Qed.

Lemma accepts_not_rbr (c : ascii) :
  cset_accepts (NoneOf [rbr]) c = negb (Ascii.eqb c rbr).
Proof. simpl. now rewrite orb_false_r. Qed.

(** ** The shape of a string around its brackets *)

Lemma split_at_rbr (s : str) :
  ~ In rbr s \/ exists n t, s = n ++ rbr :: t /\ ~ In rbr n.
Proof.
  induction s as [|c s IH].
  - left. intros [].
  - destruct (ascii_dec c rbr) as [->|Hc].
    + right. exists [], s. split; [reflexivity | intros []].
    + destruct IH as [IH | (n & t & -> & Hn)].
      * left. intros [H|H]; [congruence | contradiction].
      * right. exists (c :: n), t. split; [reflexivity|].
        intros [H|H]; [congruence | contradiction].
Qed.

(** Every string is empty, starts with a character other than [[], starts
    with a [[] that is never closed, or starts with a [[] closed by the
    first []] after it.  All later proofs go by this case analysis. *)
Lemma bracket_ind (P : str -> Prop) :
  P [] ->
  (forall c s, c <> lbr -> P s -> P (c :: s)) ->
  (forall d, ~ In rbr d -> P (lbr :: d)) ->
  (forall n t, ~ In rbr n -> P t -> P (lbr :: n ++ rbr :: t)) ->
  forall s, P s.
Proof.
  intros Hnil Hother Hdang Hpair s.
  remember (length s) as m eqn:Hm.
  revert s Hm. induction m as [m IH] using lt_wf_ind. intros s Hm.
  destruct s as [|c s]; [exact Hnil|].
  destruct (ascii_dec c lbr) as [->|Hc].
  - destruct (split_at_rbr s) as [Hd | (n & t & -> & Hn)].
    + now apply Hdang.
    + apply Hpair; [assumption|].
      apply (IH (length t)); [|reflexivity].
      subst m. simpl. rewrite length_app. simpl. lia.
  - apply Hother; [assumption|].
    apply (IH (length s)); [|reflexivity]. subst m. simpl. lia.
Qed.

Lemma not_in_app {X : Type} (x : X) (a b : list X) :
  ~ In x (a ++ b) <-> ~ In x a /\ ~ In x b.
Proof. rewrite in_app_iff. tauto. Qed.

Lemma not_in_cons_iff {X : Type} (x y : X) (l : list X) :
  ~ In x (y :: l) <-> y <> x /\ ~ In x l.
Proof. simpl. tauto. Qed.

(** Two names closed by the same bracket are the same name. *)
Lemma closed_prefix_eq (k n u t : str) :
  ~ In rbr k -> ~ In rbr n -> k ++ rbr :: u = n ++ rbr :: t -> k = n /\ u = t.
Proof.
  revert n. induction k as [|a k IH]; intros [|b n] Hk Hn E; simpl in E.
  - injection E as ->. now split.
  - injection E as E _. exfalso. apply Hn. left. now symmetry.
  - injection E as E _. exfalso. apply Hk. now left.
  - injection E as -> E.
    apply not_in_cons_iff in Hk, Hn.
    destruct (IH n (proj2 Hk) (proj2 Hn) E) as [-> ->]. now split.
Qed.

(** ** The pairing rule *)

Lemma pairs_from_closed (acc n t : str) :
  ~ In rbr n ->
  pairs_from (Some acc) (n ++ rbr :: t) = (acc ++ n) :: pairs_from None t.
Proof.
  revert acc. induction n as [|c n IH]; intros acc Hn; simpl.
  - now rewrite app_nil_r.
  - apply not_in_cons_iff in Hn. destruct Hn as [Hc Hn].
    apply Ascii.eqb_neq in Hc. rewrite Hc, IH by assumption.
    now rewrite <- app_assoc.
Qed.

Lemma pairs_from_unclosed (acc d : str) :
  ~ In rbr d -> pairs_from (Some acc) d = [].
Proof.
  revert acc. induction d as [|c d IH]; intros acc Hd; simpl; [reflexivity|].
  apply not_in_cons_iff in Hd. destruct Hd as [Hc Hd].
  apply Ascii.eqb_neq in Hc. rewrite Hc. now apply IH.
Qed.

Lemma bracket_pairs_other (c : ascii) (s : str) :
  c <> lbr -> bracket_pairs (c :: s) = bracket_pairs s.
Proof.
  intros Hc. unfold bracket_pairs. simpl.
  apply Ascii.eqb_neq in Hc. now rewrite Hc.
Qed.

Lemma bracket_pairs_unclosed (d : str) :
  ~ In rbr d -> bracket_pairs (lbr :: d) = [].
Proof. intros Hd. unfold bracket_pairs. simpl. now apply pairs_from_unclosed. Qed.

Lemma bracket_pairs_closed (n t : str) :
  ~ In rbr n -> bracket_pairs (lbr :: n ++ rbr :: t) = n :: bracket_pairs t.
Proof.
  intros Hn. unfold bracket_pairs. simpl. now rewrite pairs_from_closed.
Qed.

Lemma bracket_pairs_no_rbr (d : str) : ~ In rbr d -> bracket_pairs d = [].
Proof.
  induction d as [|c d IH]; intros Hd; [reflexivity|].
  apply not_in_cons_iff in Hd. destruct Hd as [Hc Hd].
  destruct (ascii_dec c lbr) as [->|Hl].
  - now apply bracket_pairs_unclosed.
  - rewrite bracket_pairs_other by assumption. now apply IH.
Qed.

Lemma bracket_pairs_no_lbr (a s : str) :
  ~ In lbr a -> bracket_pairs (a ++ s) = bracket_pairs s.
Proof.
  induction a as [|c a IH]; intros Ha; [reflexivity|].
  apply not_in_cons_iff in Ha. destruct Ha as [Hc Ha].
  simpl. rewrite bracket_pairs_other by assumption. now apply IH.
Qed.

(** ** The pattern on the four shapes *)

Section GreedyName.
Context {A : Type} (cont : str -> option A).
Hypothesis cont_needs_rbr : forall c u, c <> rbr -> cont (c :: u) = None.

(** The greedy run stops at the first []] and nowhere before it. *)
Lemma greedy_closed (n t : str) :
  ~ In rbr n ->
  greedy (NoneOf [rbr]) (n ++ rbr :: t) cont = cont (rbr :: t).
Proof.
  induction n as [|c n IH]; intros Hn.
  - cbn [app greedy]. rewrite accepts_not_rbr, Ascii.eqb_refl. reflexivity.
  - apply not_in_cons_iff in Hn. destruct Hn as [Hc Hn].
    change ((c :: n) ++ rbr :: t) with (c :: (n ++ rbr :: t)).
    cbn [greedy]. rewrite accepts_not_rbr.
    apply Ascii.eqb_neq in Hc as Hb. rewrite Hb. cbn [negb].
    rewrite IH by assumption.
    destruct (cont (rbr :: t)) eqn:E; [reflexivity|].
    now apply cont_needs_rbr.
Qed.

Lemma greedy_unclosed (d : str) :
  cont [] = None -> ~ In rbr d -> greedy (NoneOf [rbr]) d cont = None.
Proof.
  intros Hnil. induction d as [|c d IH]; intros Hd; [exact Hnil|].
  apply not_in_cons_iff in Hd. destruct Hd as [Hc Hd].
  cbn [greedy]. rewrite accepts_not_rbr.
  apply Ascii.eqb_neq in Hc as Hb. rewrite Hb. cbn [negb].
  rewrite IH by assumption. now apply cont_needs_rbr.
Qed.
End GreedyName.

Lemma match_here_nil : match_here pattern [] = None.
Proof. reflexivity. Qed.

Lemma match_here_other (c : ascii) (s : str) :
  c <> lbr -> match_here pattern (c :: s) = None.
Proof.
  intros Hc. unfold match_here, pattern. cbn [rmatch]. rewrite accepts_lit.
  assert (Ascii.eqb lbr c = false) as -> by (apply Ascii.eqb_neq; congruence).
  reflexivity.
Qed.

(** What is left of the pattern once [[] has been read. *)
Lemma match_here_lbr (s : str) :
  match_here pattern (lbr :: s) =
  match s with
  | [] => None
  | c :: s' =>
      if negb (Ascii.eqb c rbr) then
        greedy (NoneOf [rbr]) s'
          (fun t =>
             match t with
             | [] => None
             | x :: t' =>
                 if Ascii.eqb rbr x
                 then Some ([firstn (length s - length t) s], t')
                 else None
             end)
      else None
  end.
Proof.
  unfold match_here, pattern. cbn [rmatch]. rewrite accepts_lit.
  change (Ascii.eqb lbr lbr) with true. cbn iota.
  destruct s as [|c s']; [reflexivity|].
  rewrite accepts_not_rbr. reflexivity.
Qed.

Lemma match_here_unclosed (d : str) :
  ~ In rbr d -> match_here pattern (lbr :: d) = None.
Proof.
  intros Hd. rewrite match_here_lbr. destruct d as [|c d]; [reflexivity|].
  apply not_in_cons_iff in Hd. destruct Hd as [Hc Hd].
  apply Ascii.eqb_neq in Hc as Hb. rewrite Hb. cbn [negb].
  apply greedy_unclosed; [|reflexivity|assumption].
  intros x u Hx. assert (Ascii.eqb rbr x = false) as ->
      by (apply Ascii.eqb_neq; congruence).
  reflexivity.
Qed.

Lemma match_here_empty_pair (t : str) :
  match_here pattern (lbr :: rbr :: t) = None.
Proof. rewrite match_here_lbr. reflexivity. Qed.

Lemma match_here_closed (n t : str) :
  n <> [] -> ~ In rbr n ->
  match_here pattern (lbr :: n ++ rbr :: t) = Some ([n], t).
Proof.
  intros Hne Hn. rewrite match_here_lbr.
  destruct n as [|c n]; [congruence|].
  apply not_in_cons_iff in Hn. destruct Hn as [Hc Hn].
  change ((c :: n) ++ rbr :: t) with (c :: (n ++ rbr :: t)). cbn iota.
  apply Ascii.eqb_neq in Hc as Hb. rewrite Hb. cbn [negb].
  rewrite greedy_closed; [|intros x u Hx|assumption].
  - rewrite Ascii.eqb_refl. do 3 f_equal.
    replace (length (c :: n ++ rbr :: t) - length (rbr :: t))
      with (length (c :: n)) by (simpl; rewrite length_app; simpl; lia).
    change (c :: n ++ rbr :: t) with ((c :: n) ++ rbr :: t).
    rewrite firstn_app, Nat.sub_diag, firstn_all. cbn [firstn].
    apply app_nil_r.
  - assert (Ascii.eqb rbr x = false) as ->
        by (apply Ascii.eqb_neq; congruence).
    reflexivity.
Qed.

(** ** The scan of [re.findall] *)

Lemma scan_from_skip (r : regex) (a s : str) :
  scan_from r (length a) (a ++ s) = scan_from r 0 s.
Proof. induction a as [|c a IH]; [reflexivity | exact IH]. Qed.

Lemma scan_from_0 (r : regex) (s : str) :
  scan_from r 0 s =
  match match_here r s with
  | Some (caps, t) =>
      caps :: match s with
              | [] => []
              | _ :: s' => scan_from r (length s - length t - 1) s'
              end
  | None =>
      match s with
      | [] => []
      | _ :: s' => scan_from r 0 s'
      end
  end.
Proof. destruct s; reflexivity. Qed.

Lemma findall_other (c : ascii) (s : str) :
  c <> lbr -> re_findall pattern (c :: s) = re_findall pattern s.
Proof.
  intros Hc. unfold re_findall. rewrite scan_from_0.
  now rewrite match_here_other.
Qed.

Lemma findall_closed (n t : str) :
  ~ In rbr n ->
  re_findall pattern (lbr :: n ++ rbr :: t) =
  (if nonempty n then [n] else []) ++ re_findall pattern t.
Proof.
  intros Hn. unfold re_findall. rewrite scan_from_0.
  destruct n as [|c n].
  - cbn [app nonempty]. rewrite match_here_empty_pair.
    rewrite scan_from_0, match_here_other by (symmetry; exact lbr_neq_rbr).
    reflexivity.
  - rewrite match_here_closed by (assumption || discriminate).
    cbn [nonempty map hd]. change ([c :: n] ++ ?l) with ((c :: n) :: l).
    f_equal.
    assert (length (lbr :: (c :: n) ++ rbr :: t) - length t - 1
            = length ((c :: n) ++ [rbr])) as ->
        by (cbn [length]; rewrite !length_app; cbn [length]; lia).
    replace ((c :: n) ++ rbr :: t) with (((c :: n) ++ [rbr]) ++ t)
      by (now rewrite <- app_assoc).
    now rewrite scan_from_skip.
Qed.

Lemma findall_no_rbr (d : str) : ~ In rbr d -> re_findall pattern d = [].
Proof.
  induction d as [|c d IH]; intros Hd; [reflexivity|].
  apply not_in_cons_iff in Hd as Hd'. destruct Hd' as [Hc Hd'].
  unfold re_findall. rewrite scan_from_0.
  destruct (ascii_dec c lbr) as [->|Hl].
  - rewrite match_here_unclosed by assumption. now apply IH.
  - rewrite match_here_other by assumption. now apply IH.
Qed.

Lemma findall_unclosed (d : str) :
  ~ In rbr d -> re_findall pattern (lbr :: d) = [].
Proof.
  intros Hd. apply findall_no_rbr.
  apply not_in_cons_iff. split; [exact lbr_neq_rbr | assumption].
Qed.

(** The matches of the pattern are the bracket pairs that enclose at
    least one character. *)
Lemma findall_pairs (s : str) :
  re_findall pattern s = filter nonempty (bracket_pairs s).
Proof.
  induction s as [|c s Hc IH|d Hd|n t Hn IH] using bracket_ind.
  - reflexivity.
  - now rewrite findall_other, bracket_pairs_other.
  - now rewrite findall_unclosed, bracket_pairs_unclosed.
  - rewrite findall_closed, bracket_pairs_closed by assumption.
    cbn [filter]. rewrite IH. now destruct (nonempty n).
Qed.

(** ** [str.replace] *)

Lemma starts_with_app (p t : str) : starts_with p (p ++ t) = true.
Proof.
  induction p as [|a p IH]; [reflexivity|].
  simpl. now rewrite Ascii.eqb_refl.
Qed.

Lemma starts_with_split (p s : str) :
  starts_with p s = true -> exists t, s = p ++ t.
Proof.
  revert s. induction p as [|a p IH]; intros s H.
  - now exists s.
  - destruct s as [|b s]; [discriminate|]. simpl in H.
    apply andb_true_iff in H. destruct H as [Hab H].
    apply Ascii.eqb_eq in Hab. subst b.
    destruct (IH s H) as [t ->]. now exists t.
Qed.

Lemma starts_with_occurs (p s : str) :
  starts_with p s = true -> occurs_in p s.
Proof.
  intros H. destruct (starts_with_split _ _ H) as [t ->]. now exists [], t.
Qed.

Lemma occurs_in_cons (p : str) (c : ascii) (s : str) :
  occurs_in p s -> occurs_in p (c :: s).
Proof. intros (a & b & ->). now exists (c :: a), b. Qed.

Lemma occurs_in_app_r (p a s : str) : occurs_in p s -> occurs_in p (a ++ s).
Proof.
  intros H. induction a as [|c a IH]; [assumption|].
  now apply occurs_in_cons.
Qed.

Lemma replace_from_skip (old new a s : str) :
  replace_from old new (length a) (a ++ s) = replace_from old new 0 s.
Proof. induction a as [|c a IH]; [reflexivity | exact IH]. Qed.

Section Replace.
Variables old new : str.
Hypothesis old_nonempty : old <> [].

Lemma str_replace_from (s : str) :
  str_replace s old new = replace_from old new 0 s.
Proof. unfold str_replace. destruct old; [contradiction | reflexivity]. Qed.

Lemma str_replace_nil : str_replace [] old new = [].
Proof. now rewrite str_replace_from. Qed.

(** An occurrence at the head is replaced and the scan resumes behind
    it: the inserted text is not read again. *)
Lemma str_replace_hit (t : str) :
  str_replace (old ++ t) old new = new ++ str_replace t old new.
Proof.
  rewrite !str_replace_from.
  destruct old as [|a p] eqn:E; [contradiction|].
  change ((a :: p) ++ t) with (a :: (p ++ t)). cbn [replace_from].
  change (a :: p ++ t) with ((a :: p) ++ t).
  rewrite starts_with_app. f_equal.
  replace (length (a :: p) - 1) with (length p) by (cbn [length]; lia).
  apply replace_from_skip.
Qed.

Lemma str_replace_miss (c : ascii) (s : str) :
  starts_with old (c :: s) = false ->
  str_replace (c :: s) old new = c :: str_replace s old new.
Proof.
  intros H. rewrite !str_replace_from. cbn [replace_from]. now rewrite H.
Qed.

(** The induction that follows the scan of [str.replace]. *)
Lemma str_replace_ind (P : str -> str -> Prop) :
  P [] [] ->
  (forall t r, P t r -> P (old ++ t) (new ++ r)) ->
  (forall c s r, starts_with old (c :: s) = false ->
                 P s r -> P (c :: s) (c :: r)) ->
  forall s, P s (str_replace s old new).
Proof.
  intros Hnil Hhit Hmiss s.
  remember (length s) as m eqn:Hm.
  revert s Hm. induction m as [m IH] using lt_wf_ind. intros s Hm.
  destruct s as [|c s].
  - now rewrite str_replace_nil.
  - destruct (starts_with old (c :: s)) eqn:E.
    + destruct (starts_with_split _ _ E) as [t Ht]. rewrite Ht.
      rewrite str_replace_hit. apply Hhit.
      apply (IH (length t)); [|reflexivity].
      subst m. rewrite Ht, length_app.
      destruct old; [contradiction | simpl; lia].
    + rewrite str_replace_miss by assumption. apply Hmiss; [assumption|].
      apply (IH (length s)); [|reflexivity]. subst m. simpl. lia.
Qed.

Lemma str_replace_absent (s : str) :
  ~ occurs_in old s -> str_replace s old new = s.
Proof.
  pattern s, (str_replace s old new). apply str_replace_ind.
  - reflexivity.
  - intros t r _ H. exfalso. apply H. now exists [], t.
  - intros c u r _ IH H. f_equal. apply IH.
    intros Ho. apply H. now apply occurs_in_cons.
Qed.
End Replace.

Lemma token_nonempty (k : str) : token k <> [].
Proof. discriminate. Qed.

Lemma token_has_rbr (k : str) : In rbr (token k).
Proof. unfold token. right. apply in_or_app. right. now left. Qed.

Lemma occurs_in_has (c : ascii) (t s : str) :
  In c t -> occurs_in t s -> In c s.
Proof.
  intros Hc (a & b & ->). apply in_or_app. right. apply in_or_app. now left.
Qed.

Section ReplaceToken.
Variables k v : str.

Lemma replace_nil : str_replace [] (token k) v = [].
Proof. apply str_replace_nil, token_nonempty. Qed.

Lemma replace_other (c : ascii) (s : str) :
  c <> lbr ->
  str_replace (c :: s) (token k) v = c :: str_replace s (token k) v.
Proof.
  intros Hc. apply str_replace_miss; [apply token_nonempty|].
  unfold token. cbn [starts_with].
  apply andb_false_iff. left. apply Ascii.eqb_neq. congruence.
Qed.

Lemma replace_no_lbr (a s : str) :
  ~ In lbr a ->
  str_replace (a ++ s) (token k) v = a ++ str_replace s (token k) v.
Proof.
  induction a as [|c a IH]; intros Ha; [reflexivity|].
  apply not_in_cons_iff in Ha. destruct Ha as [Hc Ha].
  cbn [app]. rewrite replace_other by assumption. f_equal. now apply IH.
Qed.

Lemma replace_no_rbr (d : str) : ~ In rbr d -> str_replace d (token k) v = d.
Proof.
  intros Hd. apply str_replace_absent; [apply token_nonempty|].
  intros Ho. apply Hd. eapply occurs_in_has; [apply token_has_rbr | exact Ho].
Qed.

Lemma replace_hit (t : str) :
  str_replace (token k ++ t) (token k) v = v ++ str_replace t (token k) v.
Proof. apply str_replace_hit, token_nonempty. Qed.

Lemma replace_closed_same (t : str) :
  str_replace (lbr :: k ++ rbr :: t) (token k) v
  = v ++ str_replace t (token k) v.
Proof.
  rewrite <- replace_hit. f_equal. unfold token. cbn [app].
  now rewrite <- app_assoc.
Qed.

Hypothesis key_closed : ~ In rbr k.

Lemma token_at_closed (n t : str) :
  ~ In rbr n -> starts_with (token k) (lbr :: n ++ rbr :: t) = true -> k = n.
Proof.
  intros Hn H. apply starts_with_split in H. destruct H as [u Hu].
  unfold token in Hu. cbn [app] in Hu. injection Hu as Hu.
  rewrite <- app_assoc in Hu. cbn [app] in Hu. symmetry in Hu.
  now apply closed_prefix_eq in Hu.
Qed.

Lemma replace_closed_keep (n t : str) :
  ~ In rbr n -> k <> n ->
  str_replace (lbr :: n ++ rbr :: t) (token k) v
  = lbr :: str_replace (n ++ rbr :: t) (token k) v.
Proof.
  intros Hn Hkn. apply str_replace_miss; [apply token_nonempty|].
  destruct (starts_with (token k) (lbr :: n ++ rbr :: t)) eqn:E;
    [|reflexivity].
  exfalso. apply Hkn. now apply token_at_closed in E.
Qed.

Lemma replace_closed_other (n t : str) :
  ~ In rbr n -> ~ In lbr n -> k <> n ->
  str_replace (lbr :: n ++ rbr :: t) (token k) v
  = lbr :: n ++ rbr :: str_replace t (token k) v.
Proof.
  intros Hn Hl Hkn. rewrite replace_closed_keep by assumption.
  rewrite replace_no_lbr by assumption.
  rewrite replace_other by (symmetry; exact lbr_neq_rbr). reflexivity.
Qed.
End ReplaceToken.

(** ** The loop of [extract_placeholders] *)


Lemma unique_loop_In (ps seen out : list str) (n : str) :
  In n (unique_loop ps seen out) <-> In n out \/ (In n ps /\ ~ In n seen).
Proof.
  revert seen out. induction ps as [|p ps IH]; intros seen out; simpl.
  - tauto.
  - destruct (mem p seen) eqn:E.
    + apply mem_In in E. rewrite IH. split.
      * intros [H|[H1 H2]]; [now left | right; tauto].
      * intros [H|[[->|H1] H2]]; [now left | contradiction | right; tauto].
    + apply mem_not_In in E. rewrite IH, in_app_iff. simpl.
      destruct (str_dec p n) as [->|Hpn]; [tauto|].
      split.
      * intros [[H|[H|[]]]|[H1 H2]]; [now left | contradiction | right].
        split; [now right | tauto].
      * intros [H|[[H|H1] H2]]; [left; now left | contradiction | right].
        split; [assumption|]. intros [H|H]; [contradiction | tauto].
Qed.

Lemma unique_loop_NoDup (ps seen out : list str) :
  NoDup out -> (forall x, In x out -> In x seen) ->
  NoDup (unique_loop ps seen out).
Proof.
  revert seen out. induction ps as [|p ps IH]; intros seen out Hnd Hsub; simpl.
  - assumption.
  - destruct (mem p seen) eqn:E; [now apply IH|].
    apply mem_not_In in E. apply IH.
    + apply NoDup_app; [assumption | repeat constructor; intros [] |].
      intros x Hx [->|[]]. apply E. now apply Hsub.
    + intros x Hx. apply in_app_iff in Hx. destruct Hx as [Hx|[->|[]]].
      * right. now apply Hsub.
      * now left.
Qed.


Lemma extract_In (s n : str) :
  In n (extract_placeholders s) <-> In n (re_findall pattern s).
Proof.
  unfold extract_placeholders. rewrite unique_loop_In. simpl. tauto.
Qed.

Lemma extract_In_pairs (s n : str) :
  In n (extract_placeholders s) <-> In n (bracket_pairs s) /\ n <> [].
Proof.
  rewrite extract_In, findall_pairs, filter_In.
  destruct n; simpl; split; intros [H1 H2]; split;
    congruence || assumption || discriminate.
Qed.

Lemma extract_nil_iff (s : str) :
  extract_placeholders s = [] <-> re_findall pattern s = [].
Proof.
  split; intros H.
  - destruct (re_findall pattern s) as [|n l] eqn:E; [reflexivity|].
    assert (In n (extract_placeholders s))
      by (apply extract_In; rewrite E; now left).
    rewrite H in *. contradiction.
  - unfold extract_placeholders. now rewrite H.
Qed.

Lemma no_nested_open_flat (s : str) : no_nested_open s <-> flat s.
Proof.
  unfold no_nested_open, flat. split; intros H n Hn.
  - destruct n as [|c n]; [intros []|].
    apply H. apply extract_In_pairs. split; [assumption | discriminate].
  - apply H. now apply extract_In_pairs in Hn.
Qed.

(** ** Bracket pairs as substrings *)

Lemma pairs_occur (s n : str) :
  In n (bracket_pairs s) -> occurs_in (token n) s.
Proof.
  induction s as [|c s Hc IH|d Hd|m t Hm IH] using bracket_ind; intros H.
  - destruct H.
  - rewrite bracket_pairs_other in H by assumption.
    now apply occurs_in_cons, IH.
  - rewrite bracket_pairs_unclosed in H by assumption. destruct H.
  - rewrite bracket_pairs_closed in H by assumption. destruct H as [->|H].
    + exists [], t. unfold token. cbn [app]. now rewrite <- app_assoc.
    + apply occurs_in_cons.
      replace (m ++ rbr :: t) with ((m ++ [rbr]) ++ t)
        by (now rewrite <- app_assoc).
      now apply occurs_in_app_r, IH.
Qed.

Lemma pairs_closed (s n : str) : In n (bracket_pairs s) -> ~ In rbr n.
Proof.
  induction s as [|c s Hc IH|d Hd|m t Hm IH] using bracket_ind; intros H.
  - destruct H.
  - rewrite bracket_pairs_other in H by assumption. now apply IH.
  - rewrite bracket_pairs_unclosed in H by assumption. destruct H.
  - rewrite bracket_pairs_closed in H by assumption.
    destruct H as [->|H]; [assumption | now apply IH].
Qed.


Lemma flat_other (c : ascii) (s : str) : c <> lbr -> flat (c :: s) -> flat s.
Proof.
  intros Hc H n Hn. apply H. now rewrite bracket_pairs_other.
Qed.

Lemma flat_closed (n t : str) :
  ~ In rbr n -> flat (lbr :: n ++ rbr :: t) -> ~ In lbr n /\ flat t.
Proof.
  intros Hn H. split.
  - apply H. rewrite bracket_pairs_closed by assumption. now left.
  - intros m Hm. apply H. rewrite bracket_pairs_closed by assumption.
    now right.
Qed.

(** ** One pass over a body without nested opening brackets *)

Lemma pass_pairs (k v s : str) :
  ~ In rbr k -> ~ In lbr v -> flat s ->
  bracket_pairs (pass s (k, v)) =
  filter (fun n => negb (str_eqb n k)) (bracket_pairs s).
Proof.
  intros Hk Hv. unfold pass. cbn [fst snd].
  induction s as [|c s Hc IH|d Hd|n t Hn IH] using bracket_ind; intros Hs.
  - now rewrite replace_nil.
  - rewrite replace_other, !bracket_pairs_other by assumption.
    apply IH. now apply flat_other in Hs.
  - rewrite replace_no_rbr.
    + now rewrite bracket_pairs_unclosed.
    + apply not_in_cons_iff. split; [exact lbr_neq_rbr | assumption].
  - destruct (flat_closed _ _ Hn Hs) as [Hl Ht].
    rewrite (bracket_pairs_closed n t) by assumption. cbn [filter].
    destruct (str_eqb n k) eqn:E.
    + apply str_eqb_eq in E. subst n. cbn [negb].
      rewrite replace_closed_same, bracket_pairs_no_lbr by assumption.
      now apply IH.
    + apply str_eqb_neq in E. cbn [negb].
      rewrite replace_closed_other, bracket_pairs_closed
        by (assumption || congruence).
      f_equal. now apply IH.
Qed.

Lemma pass_flat (k v s : str) :
  ~ In rbr k -> ~ In lbr v -> flat s -> flat (pass s (k, v)).
Proof.
  intros Hk Hv Hs n Hn. rewrite pass_pairs in Hn by assumption.
  apply filter_In in Hn. now apply Hs.
Qed.

Lemma pass_absent (k v s : str) :
  ~ In rbr k -> flat s -> ~ In k (bracket_pairs s) -> pass s (k, v) = s.
Proof.
  intros Hk. unfold pass. cbn [fst snd].
  induction s as [|c s Hc IH|d Hd|n t Hn IH] using bracket_ind; intros Hs Ha.
  - now rewrite replace_nil.
  - rewrite replace_other by assumption. f_equal.
    rewrite bracket_pairs_other in Ha by assumption.
    apply IH; [now apply flat_other in Hs | assumption].
  - apply replace_no_rbr.
    apply not_in_cons_iff. split; [exact lbr_neq_rbr | assumption].
  - destruct (flat_closed _ _ Hn Hs) as [Hl Ht].
    rewrite bracket_pairs_closed in Ha by assumption.
    apply not_in_cons_iff in Ha. destruct Ha as [Hnk Ha].
    rewrite replace_closed_other by (assumption || congruence).
    do 2 f_equal. f_equal. now apply IH.
Qed.

Lemma pass_comm (k1 v1 k2 v2 s : str) :
  k1 <> k2 -> plain (k1, v1) -> plain (k2, v2) -> flat s ->
  pass (pass s (k1, v1)) (k2, v2) = pass (pass s (k2, v2)) (k1, v1).
Proof.
  intros Hne [Hk1 Hv1] [Hk2 Hv2]. unfold pass. cbn [fst snd] in *.
  induction s as [|c s Hc IH|d Hd|n t Hn IH] using bracket_ind; intros Hs.
  - now rewrite !replace_nil.
  - rewrite !replace_other by assumption. f_equal.
    apply IH. now apply flat_other in Hs.
  - assert (~ In rbr (lbr :: d)) as Hd'
        by (apply not_in_cons_iff; split; [exact lbr_neq_rbr | assumption]).
    now rewrite !(replace_no_rbr _ _ (lbr :: d)) by assumption.
  - destruct (flat_closed _ _ Hn Hs) as [Hl Ht].
    destruct (str_dec k1 n) as [E1|E1];
      destruct (str_dec k2 n) as [E2|E2].
    + congruence.
    + subst n.
      rewrite (replace_closed_other k2) by assumption.
      rewrite !replace_closed_same.
      rewrite replace_no_lbr by assumption. f_equal. now apply IH.
    + subst n.
      rewrite (replace_closed_other k1) by assumption.
      rewrite !replace_closed_same.
      rewrite replace_no_lbr by assumption. f_equal. now apply IH.
    + repeat first [ rewrite (replace_closed_other k1) by assumption
                   | rewrite (replace_closed_other k2) by assumption ].
      do 2 f_equal. f_equal. now apply IH.
Qed.

(** ** The loop of [replace_placeholders] *)

Lemma replace_placeholders_nil (s : str) : replace_placeholders s [] = s.
Proof. reflexivity. Qed.

Lemma replace_placeholders_cons (s : str) (e : str * str) l :
  replace_placeholders s (e :: l) = replace_placeholders (pass s e) l.
Proof. destruct e. reflexivity. Qed.

Lemma replace_placeholders_app (s : str) (l1 l2 : list (str * str)) :
  replace_placeholders s (l1 ++ l2) =
  replace_placeholders (replace_placeholders s l1) l2.
Proof. unfold replace_placeholders. apply fold_left_app. Qed.

(** A pass with any name at all, over a body without nested opening
    brackets: when the value opens no bracket, the pass adds no pair. *)

Lemma pairs_from_app_closed (o : option str) (x u : str) :
  pairs_from o (x ++ rbr :: u) = pairs_from o (x ++ [rbr]) ++ bracket_pairs u.
Proof.
  revert o. induction x as [|c x IH]; intros o.
  - cbn [app pairs_from]. destruct o as [acc|].
    + rewrite Ascii.eqb_refl. reflexivity.
    + assert (Ascii.eqb rbr lbr = false) as -> by reflexivity. reflexivity.
  - cbn [app pairs_from]. destruct o as [acc|].
    + destruct (Ascii.eqb c rbr); [cbn [app]; f_equal|]; apply IH.
    + destruct (Ascii.eqb c lbr); apply IH.
Qed.

Lemma shape_cases (s : str) :
  s = []
  \/ (exists c s', s = c :: s' /\ c <> lbr)
  \/ (exists d, s = lbr :: d /\ ~ In rbr d)
  \/ (exists n t, s = lbr :: n ++ rbr :: t /\ ~ In rbr n).
Proof.
  induction s as [|c s Hc _|d Hd|n t Hn _] using bracket_ind.
  - now left.
  - right. left. now exists c, s.
  - right. right. left. now exists d.
  - right. right. right. now exists n, t.
Qed.

Lemma pass_no_new_pairs (k v : str) :
  ~ In lbr v ->
  forall s, flat s ->
            incl (bracket_pairs (pass s (k, v))) (bracket_pairs s).
Proof.
  intros Hv s. unfold pass. cbn [fst snd].
  remember (length s) as m eqn:Hm.
  revert s Hm. induction m as [m IH] using lt_wf_ind. intros s Hm Hs.
  destruct (shape_cases s)
    as [->|[(c & s' & -> & Hc)|[(d & -> & Hd)|(n & t & -> & Hn)]]].
  - rewrite replace_nil. apply incl_refl.
  - rewrite replace_other, !bracket_pairs_other by assumption.
    apply (IH (length s')); [subst m; simpl; lia | reflexivity |].
    now apply flat_other in Hs.
  - rewrite replace_no_rbr; [apply incl_refl|].
    apply not_in_cons_iff. split; [exact lbr_neq_rbr | assumption].
  - destruct (flat_closed _ _ Hn Hs) as [Hl Ht].
    assert (length t < m) as Hlt
        by (subst m; simpl; rewrite length_app; simpl; lia).
    destruct (starts_with (token k) (lbr :: n ++ rbr :: t)) eqn:E.
    + destruct (starts_with_split _ _ E) as [u Hu]. rewrite Hu.
      rewrite replace_hit, bracket_pairs_no_lbr by assumption.
      assert (token k ++ u = (lbr :: k) ++ rbr :: u) as Hshape
          by (unfold token; cbn [app]; now rewrite <- app_assoc).
      assert (incl (bracket_pairs u) (bracket_pairs (token k ++ u))) as Hinc.
      { rewrite Hshape. unfold bracket_pairs at 2.
        rewrite pairs_from_app_closed. apply incl_appr, incl_refl. }
      eapply incl_tran; [|exact Hinc].
      apply (IH (length u)); [|reflexivity|].
      * subst m. rewrite Hu, Hshape, length_app. simpl. lia.
      * intros x Hx. apply Hs. rewrite Hu. now apply Hinc.
    + rewrite str_replace_miss by (apply token_nonempty || assumption).
      rewrite replace_no_lbr by assumption.
      rewrite replace_other by (symmetry; exact lbr_neq_rbr).
      rewrite !bracket_pairs_closed by assumption.
      apply incl_cons; [now left|].
      apply incl_tl. now apply (IH (length t)).
Qed.

Lemma replace_no_new_pairs (values : list (str * str)) (s : str) :
  Forall (fun e => ~ In lbr (snd e)) values -> flat s ->
  incl (bracket_pairs (replace_placeholders s values)) (bracket_pairs s).
Proof.
  revert s. induction values as [|[k v] l IH]; intros s Hp Hs.
  - apply incl_refl.
  - apply Forall_cons_iff in Hp. destruct Hp as [Hv Hp]. cbn [snd] in Hv.
    rewrite replace_placeholders_cons.
    pose proof (pass_no_new_pairs k v Hv s Hs) as Hinc.
    eapply incl_tran; [|exact Hinc].
    apply IH; [assumption|].
    intros n Hn. apply Hs. now apply Hinc.
Qed.

Lemma filter_twice {X : Type} (f g : X -> bool) (l : list X) :
  filter f (filter g l) = filter (fun x => g x && f x) l.
Proof.
  induction l as [|x l IH]; [reflexivity|].
  cbn [filter]. destruct (g x); cbn [filter andb]; now rewrite IH.
Qed.

Lemma replace_pairs (values : list (str * str)) (s : str) :
  Forall plain values -> flat s ->
  flat (replace_placeholders s values) /\
  bracket_pairs (replace_placeholders s values) =
  filter (fun n => negb (mem n (keys values))) (bracket_pairs s).
Proof.
  revert s. induction values as [|[k v] l IH]; intros s Hp Hs.
  - split; [assumption|]. cbn [keys map mem existsb negb].
    symmetry. apply forallb_filter_id. now apply forallb_forall.
  - apply Forall_cons_iff in Hp. destruct Hp as [[Hk Hv] Hp].
    cbn [fst snd] in Hk, Hv.
    rewrite replace_placeholders_cons.
    destruct (IH (pass s (k, v)) Hp (pass_flat _ _ _ Hk Hv Hs)) as [Hf He].
    split; [assumption|].
    rewrite He, pass_pairs by assumption.
    rewrite filter_twice. apply filter_ext. intros n.
    cbn [keys map fst mem existsb]. now rewrite negb_orb.
Qed.

Lemma replace_fixed (values : list (str * str)) (s : str) :
  Forall (fun e => ~ In rbr (fst e)) values -> flat s ->
  (forall k, In k (keys values) -> ~ In k (bracket_pairs s)) ->
  replace_placeholders s values = s.
Proof.
  induction values as [|[k v] l IH]; intros Hp Hs Ha; [reflexivity|].
  apply Forall_cons_iff in Hp. destruct Hp as [Hk Hp]. cbn [fst] in Hk.
  rewrite replace_placeholders_cons.
  rewrite pass_absent; [|assumption|assumption|apply Ha; now left].
  apply IH; [assumption | assumption |].
  intros k' Hk'. apply Ha. now right.
Qed.

(** Entries whose tokens do not occur leave any body as it is. *)
Lemma replace_disjoint (values : list (str * str)) (s : str) :
  (forall k, In k (keys values) -> ~ occurs_in (token k) s) ->
  replace_placeholders s values = s.
Proof.
  induction values as [|[k v] l IH]; intros H; [reflexivity|].
  rewrite replace_placeholders_cons. unfold pass. cbn [fst snd].
  rewrite str_replace_absent;
    [|apply token_nonempty | apply H; now left].
  apply IH. intros k' Hk'. apply H. now right.
Qed.

Lemma replace_perm (values values' : list (str * str)) :
  Permutation values values' ->
  forall s, NoDup (keys values) -> Forall plain values -> flat s ->
            replace_placeholders s values = replace_placeholders s values'.
Proof.
  induction 1 as [|e l l' Hperm IH|[k1 v1] [k2 v2] l|l l' l'' H1 IH1 H2 IH2];
    intros s Hnd Hp Hs.
  - reflexivity.
  - rewrite !replace_placeholders_cons.
    apply Forall_cons_iff in Hp. destruct Hp as [He Hp].
    cbn [keys map] in Hnd. apply NoDup_cons_iff in Hnd.
    apply IH; [tauto | assumption |].
    destruct e as [k v]. destruct He. now apply pass_flat.
  - rewrite !replace_placeholders_cons.
    apply Forall_cons_iff in Hp. destruct Hp as [He1 Hp].
    apply Forall_cons_iff in Hp. destruct Hp as [He2 Hp].
    cbn [keys map fst] in Hnd. apply NoDup_cons_iff in Hnd.
    destruct Hnd as [Hnd _].
    rewrite (pass_comm k2 v2 k1 v1); try assumption; [reflexivity|].
    intros ->. apply Hnd. now left.
  - rewrite IH1 by assumption. apply IH2; [| |assumption].
    + unfold keys in *. eapply Permutation_NoDup; [|exact Hnd].
      now apply Permutation_map.
    + eapply Permutation_Forall; eassumption.
Qed.

(** ** A token that no entry names *)

Lemma starts_with_app_split (p x y : str) :
  starts_with p (x ++ y) = true ->
  starts_with p x = true \/
  exists p2, p = x ++ p2 /\ p2 <> [] /\ starts_with p2 y = true.
Proof.
  revert x. induction p as [|a p IH]; intros x H.
  - now left.
  - destruct x as [|c x].
    + right. exists (a :: p). repeat split; [discriminate | exact H].
    + cbn [app starts_with] in H |- *.
      apply andb_true_iff in H. destruct H as [Hac H]. rewrite Hac.
      destruct (IH x H) as [Hl | (p2 & -> & Hne & Hp2)]; [now left|].
      right. exists p2. apply Ascii.eqb_eq in Hac. subst c. now repeat split.
Qed.

Lemma token_not_across (k n b : str) (c : ascii) (s : str) :
  ~ In lbr k ->
  starts_with (token k) (c :: s) = false ->
  starts_with (token k) ((c :: s) ++ token n ++ b) = false.
Proof.
  intros Hk Hmiss.
  destruct (starts_with (token k) ((c :: s) ++ token n ++ b)) eqn:E;
    [|reflexivity].
  exfalso. apply starts_with_app_split in E.
  destruct E as [E | (p2 & Hp & Hne & Hp2)]; [congruence|].
  destruct p2 as [|x p2]; [congruence|].
  unfold token in Hp2. cbn [app starts_with] in Hp2.
  apply andb_true_iff in Hp2. destruct Hp2 as [Hx _].
  apply Ascii.eqb_eq in Hx. subst x.
  unfold token in Hp. cbn [app] in Hp. injection Hp as _ Hp.
  assert (In lbr (k ++ [rbr])) as Hin
      by (rewrite Hp; apply in_or_app; right; now left).
  apply in_app_iff in Hin. destruct Hin as [Hin|[Hin|[]]]; [tauto|].
  now apply lbr_neq_rbr.
Qed.

Lemma pass_around_token (k v n a b : str) :
  bracket_free k -> bracket_free n -> k <> n ->
  pass (a ++ token n ++ b) (k, v) = pass a (k, v) ++ token n ++ pass b (k, v).
Proof.
  intros [Hkl Hkr] [Hnl Hnr] Hne. unfold pass. cbn [fst snd].
  pattern a, (str_replace a (token k) v).
  apply str_replace_ind; [apply token_nonempty | | |].
  - unfold token at 1 3. cbn [app]. rewrite <- !app_assoc. cbn [app].
    now apply replace_closed_other.
  - intros t r IH. rewrite <- !app_assoc, replace_hit. now rewrite IH.
  - intros c s r Hmiss IH.
    change ((c :: s) ++ token n ++ b) with (c :: (s ++ token n ++ b)).
    rewrite str_replace_miss;
      [|apply token_nonempty | now apply (token_not_across k n b c s)].
    cbn [app]. now rewrite IH.
Qed.

Lemma replace_around_token (values : list (str * str)) (n a b : str) :
  bracket_free n -> ~ In n (keys values) ->
  Forall (fun e => bracket_free (fst e)) values ->
  replace_placeholders (a ++ token n ++ b) values =
  replace_placeholders a values ++ token n ++ replace_placeholders b values.
Proof.
  intros Hn. revert a b.
  induction values as [|[k v] l IH]; intros a b Hk Hp; [reflexivity|].
  apply Forall_cons_iff in Hp. destruct Hp as [Hkf Hp]. cbn [fst] in Hkf.
  cbn [keys map fst] in Hk. apply not_in_cons_iff in Hk.
  destruct Hk as [Hkn Hk].
  rewrite !replace_placeholders_cons, pass_around_token by assumption.
  now apply IH.
Qed.

(** ** Lookup in a dict *)

Lemma dict_get_absent (d : list (str * str)) (key default : str) :
  ~ In key (map fst d) -> dict_get d key default = default.
Proof.
  induction d as [|[k v] d IH]; intros H; [reflexivity|].
  cbn [map fst] in H. apply not_in_cons_iff in H. destruct H as [Hk H].
  cbn [dict_get]. apply str_eqb_neq in Hk. rewrite Hk. now apply IH.
Qed.

(** ** Deciding the side conditions on closed instances *)

Lemma has_In (c : ascii) (s : str) : has c s = true <-> In c s.
Proof.
  unfold has. rewrite existsb_exists. split.
  - intros (x & Hx & He). apply Ascii.eqb_eq in He. now subst.
  - intros H. exists c. split; [assumption | apply Ascii.eqb_refl].
Qed.

Lemma has_not_In (c : ascii) (s : str) : has c s = false -> ~ In c s.
Proof. intros H Hin. apply has_In in Hin. congruence. Qed.

Lemma no_nested_openb_sound (body : str) :
  no_nested_openb body = true -> no_nested_open body.
Proof.
  unfold no_nested_openb, no_nested_open. rewrite forallb_forall.
  intros H n Hn. apply has_not_In. apply H in Hn.
  now destruct (has lbr n).
Qed.

Lemma plainb_sound (values : list (str * str)) :
  forallb plainb values = true -> Forall plain values.
Proof.
  rewrite forallb_forall. intros H. apply Forall_forall. intros e He.
  apply H in He. unfold plainb in He. apply andb_true_iff in He.
  destruct He as [H1 H2]. split; apply has_not_In.
  - now destruct (has rbr (fst e)).
  - now destruct (has lbr (snd e)).
Qed.

Lemma bracket_freeb_sound (v : str) : bracket_freeb v = true -> bracket_free v.
Proof.
  unfold bracket_freeb. intros H. apply andb_true_iff in H.
  destruct H as [H1 H2]. split; apply has_not_In.
  - now destruct (has lbr v).
  - now destruct (has rbr v).
Qed.

Lemma not_occurs_without (c : ascii) (t s : str) :
  In c t -> has c s = false -> ~ occurs_in t s.
Proof.
  intros Hc Hs Ho. apply (has_not_In _ _ Hs).
  eapply occurs_in_has; eassumption.
Qed.

(** ** Text that leaves no bracket open *)





Lemma closed_no_lbr (a : str) : ~ In lbr a -> closed a.
Proof.
  intros H a1 a2 E. exfalso. apply H. rewrite E.
  apply in_or_app. right. now left.
Qed.






(** ** Deduplication, filters and concatenation *)

Lemma mem_filter (p : str -> bool) (x : str) (seen : list str) :
  p x = true -> mem x (filter p seen) = mem x seen.
Proof.
  intros Hp. destruct (mem x seen) eqn:E.
  - apply mem_In. apply filter_In. split; [now apply mem_In | assumption].
  - apply mem_not_In. apply mem_not_In in E.
    intros H. apply filter_In in H. tauto.
Qed.

Lemma unique_loop_filter (p : str -> bool) (l seen out : list str) :
  unique_loop (filter p l) (filter p seen) (filter p out)
  = filter p (unique_loop l seen out).
Proof.
  revert seen out. induction l as [|x l IH]; intros seen out; [reflexivity|].
  cbn [filter unique_loop]. destruct (p x) eqn:Hp.
  - cbn [unique_loop]. rewrite mem_filter by assumption.
    destruct (mem x seen); [apply IH|].
    rewrite <- IH. cbn [filter]. rewrite Hp, filter_app. cbn [filter].
    now rewrite Hp.
  - destruct (mem x seen); [apply IH|].
    rewrite <- IH. cbn [filter]. rewrite Hp, filter_app. cbn [filter].
    now rewrite Hp, app_nil_r.
Qed.







(** ** The catalog as shipped *)

(** The placeholders of the first template, in the order in which the
    form asks for them. *)
Example extract_male_regular :
  extract_placeholders template_male_regular
  = [ ("Panchayath/Constituency Name" : str); ("Candidate Name" : str);
      ("Party Name Initials" : str); ("Symbol Name" : str);
      ("Campaign Tagline" : str); ("Full Party Name" : str);
      ("Symbol Description" : str) ].
Proof. vm_compute. reflexivity. Qed.

(** No template of the catalog nests an opening bracket in a
    placeholder. *)
Lemma catalog_no_nested_open :
  Forall (fun e => no_nested_open (snd e)) TEMPLATES.
Proof.
  repeat constructor; apply no_nested_openb_sound; vm_compute; reflexivity.
Qed.

(** * The claims of the specification *)

(** ** Substitution: passes, rescanning and order *)

(** C1, as the code has it.  [replace_placeholders] applies the entries
    one after the other, in the order of the mapping, and the empty
    mapping changes nothing.  The pass of an entry reads any body from
    the left: where the token of the entry stands, it inserts the
    value verbatim and resumes behind it, so the pass never reads its
    own insertion again, whatever brackets the value holds; elsewhere
    it copies the character and moves on by one.  These equations fix
    the pass for every body.  The result does not depend on the order
    of the entries when no placeholder of the body has an opening
    bracket in its name, no name of the mapping holds a closing
    bracket and no value holds an opening bracket. *)
Theorem replace_placeholders_passes :
  (forall k v : str, replace_placeholders [] [(k, v)] = [])
  /\ (forall k v t : str,
         replace_placeholders (token k ++ t) [(k, v)]
         = v ++ replace_placeholders t [(k, v)])
  /\ (forall (k v : str) (c : ascii) (s : str),
         (forall t, c :: s <> token k ++ t) ->
         replace_placeholders (c :: s) [(k, v)]
         = c :: replace_placeholders s [(k, v)])
  /\ (forall (k v : str) (f : str -> str),
         f [] = [] ->
         (forall t, f (token k ++ t) = v ++ f t) ->
         (forall c s, (forall t, c :: s <> token k ++ t) ->
                      f (c :: s) = c :: f s) ->
         forall body, f body = replace_placeholders body [(k, v)])
  /\ (forall a k v b : str,
         ~ In lbr a ->
         replace_placeholders (a ++ token k ++ b) [(k, v)] =
         a ++ v ++ replace_placeholders b [(k, v)])
  /\ (forall body : str, replace_placeholders body [] = body)
  /\ (forall (body : str) e values,
         replace_placeholders body (e :: values) =
         replace_placeholders (replace_placeholders body [e]) values)
  /\ (forall (body : str) values values',
         no_nested_open body -> Forall plain values -> NoDup (keys values) ->
         Permutation values values' ->
         replace_placeholders body values = replace_placeholders body values').
Proof.
  assert (forall (k v : str) (c : ascii) (s : str),
             (forall t, c :: s <> token k ++ t) ->
             starts_with (token k) (c :: s) = false) as Hmiss.
  { intros k v c s H. destruct (starts_with (token k) (c :: s)) eqn:E;
      [|reflexivity].
    apply starts_with_split in E. destruct E as [t E]. now apply H in E. }
  split; [|split; [|split; [|split; [|split; [|split; [|split]]]]]].
  - intros k v. apply replace_nil.
  - intros k v t. apply replace_hit.
  - intros k v c s H. apply str_replace_miss; [apply token_nonempty|].
    now apply (Hmiss k v).
  - intros k v f Hnil Hhit Hcopy body.
    change (replace_placeholders body [(k, v)])
      with (str_replace body (token k) v).
    pattern body, (str_replace body (token k) v).
    apply str_replace_ind; [apply token_nonempty | exact Hnil | |].
    + intros t r IH. now rewrite Hhit, IH.
    + intros c s r E IH. rewrite Hcopy, IH; [reflexivity|].
      intros t Ht. rewrite Ht, starts_with_app in E. discriminate.
  - intros a k v b Ha. rewrite !replace_placeholders_cons.
    cbn [replace_placeholders fold_left]. unfold pass. cbn [fst snd].
    now rewrite replace_no_lbr, replace_hit.
  - reflexivity.
  - intros body [k v] values. reflexivity.
  - intros body values values' Hb Hp Hnd Hperm.
    apply replace_perm; try assumption. now apply no_nested_open_flat.
Qed.

(** C1 at concrete bodies and mappings: a character that is copied, a
    value with brackets behind text, and two entries in either
    order. *)
Lemma replace_placeholders_passes_witness :
  replace_placeholders ("x"%char :: "[A][A]") [entry "A" "x[A]"]
  = "x"%char :: replace_placeholders "[A][A]" [entry "A" "x[A]"]
  /\ (fun body => replace_placeholders body [entry "A" "x[A]"]) "[X][A]"
     = replace_placeholders "[X][A]" [entry "A" "x[A]"]
  /\ replace_placeholders ("Dear " ++ token "Name" ++ ", hello")
       [entry "Name" "[Anu]"]
     = "Dear " ++ "[Anu]"
         ++ replace_placeholders ", hello" [entry "Name" "[Anu]"]
  /\ replace_placeholders "Hello [Name], welcome to [Place]."
       [entry "Name" "Anu"; entry "Place" "Kochi"]
     = replace_placeholders "Hello [Name], welcome to [Place]."
         [entry "Place" "Kochi"; entry "Name" "Anu"].
Proof.
  destruct replace_placeholders_passes
    as (Hnil & Hhit & Hcopy & Hfix & Htext & _ & _ & Horder).
  split; [|split; [|split]].
  - apply Hcopy. intros t H. unfold token in H. cbn [app] in H.
    injection H as H _. vm_compute in H. discriminate.
  - apply (Hfix "A" "x[A]"
             (fun body => replace_placeholders body [entry "A" "x[A]"])).
    + apply Hnil.
    + apply Hhit.
    + apply Hcopy.
  - apply Htext. apply has_not_In. vm_compute. reflexivity.
  - apply Horder.
    + apply no_nested_openb_sound. vm_compute. reflexivity.
    + apply plainb_sound. vm_compute. reflexivity.
    + repeat constructor; vm_compute; intuition discriminate.
    + apply perm_swap.
Defined.

(** C1 fails as stated: the value inserted for [A] is read again by the
    pass of [B], and the same entries in the other order give another
    result. *)
Lemma replace_placeholders_order_matters :
  NoDup (keys [entry "A" "[B]"; entry "B" "x"])
  /\ Permutation [entry "A" "[B]"; entry "B" "x"]
                 [entry "B" "x"; entry "A" "[B]"]
  /\ replace_placeholders "[A]" [entry "A" "[B]"; entry "B" "x"] = ("x" : str)
  /\ replace_placeholders "[A]" [entry "B" "x"; entry "A" "[B]"]
     = ("[B]" : str)
  /\ replace_placeholders "[A]" [entry "A" "[B]"; entry "B" "x"]
     <> replace_placeholders "[A]" [entry "B" "x"; entry "A" "[B]"].
Proof.
  repeat split.
  - repeat constructor; vm_compute; intuition discriminate.
  - apply perm_swap.
  - vm_compute. discriminate.
Qed.

(** ** Extraction: the pairing rule *)




(** ** Extraction: uniqueness and order *)



(** ** Extraction after a complete substitution *)

(** C4, as the code has it.  When no placeholder of the body has an
    opening bracket in its name, the mapping has exactly one entry for
    each extracted name and no value holds bracket syntax, nothing is
    left to extract from the substituted body. *)
Theorem extract_after_complete_replace (body : str) values :
  no_nested_open body ->
  Permutation (keys values) (extract_placeholders body) ->
  (forall v, In v (map snd values) -> bracket_free v) ->
  extract_placeholders (replace_placeholders body values) = [].
Proof.
  intros Hb Hkeys Hvals.
  assert (flat body) as Hf by now apply no_nested_open_flat.
  assert (Forall plain values) as Hp.
  { apply Forall_forall. intros [k v] He. split; cbn [fst snd].
    - apply (pairs_closed body). apply (extract_In_pairs body k).
      eapply Permutation_in; [exact Hkeys|].
      unfold keys. now apply (in_map fst) in He.
    - apply (Hvals v). now apply (in_map snd) in He. }
  apply extract_nil_iff. rewrite findall_pairs.
  destruct (replace_pairs values body Hp Hf) as [_ ->].
  rewrite filter_twice.
  destruct (filter _ (bracket_pairs body)) as [|m l] eqn:E; [reflexivity|].
  exfalso.
  assert (In m (m :: l)) as Hm by now left.
  rewrite <- E in Hm. apply filter_In in Hm. destruct Hm as [Hm Hc].
  apply andb_true_iff in Hc. destruct Hc as [Hc Hne].
  assert (In m (keys values)) as Hk.
  { eapply Permutation_in; [symmetry; exact Hkeys|].
    apply extract_In_pairs. split; [assumption|]. now destruct m. }
  apply mem_In in Hk. rewrite Hk in Hc. discriminate.
Qed.

(** C4 at the body of the specification's example. *)
Lemma extract_after_complete_replace_witness :
  extract_placeholders
    (replace_placeholders "Hello [Name], welcome to [Place]. [Name] again."
       [entry "Name" "Anu"; entry "Place" "Kochi"]) = [].
Proof.
  apply extract_after_complete_replace.
  - apply no_nested_openb_sound. vm_compute. reflexivity.
  - vm_compute. apply Permutation_refl.
  - intros v Hv. apply bracket_freeb_sound.
    vm_compute in Hv. destruct Hv as [<-|[<-|[]]]; vm_compute; reflexivity.
Defined.

(** C4 fails as stated: the body ["[a][[a]]"] has the names [a] and
    [[a]; the pass for [a] also rewrites the inside of the second
    token, and a bracket token is left over. *)
Lemma extract_after_replace_leftover :
  extract_placeholders "[a][[a]]" = [("a" : str); ("[a" : str)]
  /\ keys [entry "a" "x"; entry "[a" "y"] = extract_placeholders "[a][[a]]"
  /\ Forall bracket_free (map snd [entry "a" "x"; entry "[a" "y"])
  /\ replace_placeholders "[a][[a]]" [entry "a" "x"; entry "[a" "y"]
     = ("x[x]" : str)
  /\ extract_placeholders
       (replace_placeholders "[a][[a]]" [entry "a" "x"; entry "[a" "y"])
     = [("x" : str)].
Proof.
  repeat split; try (constructor; [|constructor; [|constructor]]);
    apply bracket_freeb_sound; reflexivity.
Qed.

(** ** Substituting twice *)

(** C5, as the code has it.  Running the same mapping over the
    substituted body changes nothing when no placeholder of the body
    has an opening bracket in its name, no name of the mapping holds a
    closing bracket and no value holds an opening bracket. *)
Theorem replace_placeholders_twice (body : str) values :
  no_nested_open body -> Forall plain values ->
  replace_placeholders (replace_placeholders body values) values
  = replace_placeholders body values.
Proof.
  intros Hb Hp. apply no_nested_open_flat in Hb.
  destruct (replace_pairs values body Hp Hb) as [Hf He].
  apply replace_fixed.
  - eapply Forall_impl; [|exact Hp]. now intros e [H _].
  - assumption.
  - intros k Hk Hin. rewrite He in Hin. apply filter_In in Hin.
    destruct Hin as [_ Hc]. apply mem_In in Hk. rewrite Hk in Hc.
    discriminate.
Qed.

(** C5 at the body of the specification's example. *)
Lemma replace_placeholders_twice_witness :
  replace_placeholders
    (replace_placeholders "Hello [Name], welcome to [Place]. [Name] again."
       [entry "Name" "Anu"])
    [entry "Name" "Anu"]
  = replace_placeholders "Hello [Name], welcome to [Place]. [Name] again."
      [entry "Name" "Anu"].
Proof.
  apply replace_placeholders_twice.
  - apply no_nested_openb_sound. vm_compute. reflexivity.
  - apply plainb_sound. vm_compute. reflexivity.
Defined.

(** C5 fails as stated: a value that holds its own token is replaced
    again by the second run. *)
Lemma replace_placeholders_twice_differs :
  replace_placeholders "[A]" [entry "A" "x[A]"] = ("x[A]" : str)
  /\ replace_placeholders (replace_placeholders "[A]" [entry "A" "x[A]"])
       [entry "A" "x[A]"] = ("xx[A]" : str)
  /\ replace_placeholders (replace_placeholders "[A]" [entry "A" "x[A]"])
       [entry "A" "x[A]"]
     <> replace_placeholders "[A]" [entry "A" "x[A]"].
Proof.
  repeat split. vm_compute. discriminate.
Qed.

(** ** Entries that the body does not use *)

(** C6, as the code has it.  An entry whose token does not occur in the
    body changes nothing when it is the first entry of the mapping.
    At a later position it changes nothing when no placeholder of the
    body has an opening bracket in its name, no value of the entries
    before it holds an opening bracket and its own name holds no
    closing bracket. *)
Theorem replace_placeholders_unused_entry (body k v : str) :
  ~ occurs_in (token k) body ->
  (forall values,
      replace_placeholders body ((k, v) :: values)
      = replace_placeholders body values)
  /\ (forall before after,
         no_nested_open body ->
         Forall (fun e => ~ In lbr (snd e)) before ->
         ~ In rbr k ->
         replace_placeholders body (before ++ (k, v) :: after)
         = replace_placeholders body (before ++ after)).
Proof.
  intros Habs. split.
  - intros values. rewrite replace_placeholders_cons. unfold pass.
    cbn [fst snd]. rewrite str_replace_absent; [reflexivity | | assumption].
    apply token_nonempty.
  - intros before after Hb Hp Hk. apply no_nested_open_flat in Hb.
    rewrite !replace_placeholders_app, replace_placeholders_cons.
    pose proof (replace_no_new_pairs before body Hp Hb) as Hinc.
    rewrite pass_absent; [reflexivity | assumption | |].
    + intros n Hn. apply Hb. now apply Hinc.
    + intros Hin. apply Habs. now apply pairs_occur, Hinc.
Qed.

(** C6 at the body of the specification's example. *)
Lemma replace_placeholders_unused_entry_witness :
  replace_placeholders "Hello [Name], welcome to [Place]."
    ([entry "Name" "Anu"] ++ entry "Party" "LDF" :: [entry "Place" "Kochi"])
  = replace_placeholders "Hello [Name], welcome to [Place]."
      ([entry "Name" "Anu"] ++ [entry "Place" "Kochi"]).
Proof.
  assert (~ occurs_in (token "Party") "Hello [Name], welcome to [Place].")
    as Habs.
  { apply (not_occurs_without "y"%char); [|reflexivity].
    vm_compute. tauto. }
  apply (proj2 (replace_placeholders_unused_entry
                  "Hello [Name], welcome to [Place]." "Party" "LDF" Habs)).
  - apply no_nested_openb_sound. vm_compute. reflexivity.
  - repeat constructor; apply has_not_In; vm_compute; reflexivity.
  - apply has_not_In. vm_compute. reflexivity.
Defined.

(** C6 fails as stated: [B] is absent from the body ["[A]"], but the
    value inserted for [A] holds its token, and the added entry
    rewrites it. *)
Lemma replace_placeholders_unused_entry_used :
  ~ occurs_in (token "B") "[A]"
  /\ ~ In ("B" : str) (extract_placeholders "[A]")
  /\ replace_placeholders "[A]" [entry "A" "[B]"] = ("[B]" : str)
  /\ replace_placeholders "[A]" ([entry "A" "[B]"] ++ [entry "B" "x"])
     = ("x" : str)
  /\ replace_placeholders "[A]" ([entry "A" "[B]"] ++ [entry "B" "x"])
     <> replace_placeholders "[A]" [entry "A" "[B]"].
Proof.
  repeat split.
  - apply (not_occurs_without "B"%char); [|reflexivity].
    right. now left.
  - vm_compute. intuition discriminate.
  - vm_compute. discriminate.
Qed.

(** ** Tokens without an entry *)

(** C7, as the code has it.  A token whose name holds no bracket and
    has no entry stays where it is, brackets included, when no name of
    the mapping holds a bracket: the text on either side of it is
    substituted on its own.  With the body of the specification's
    example and a value for [Name] alone, [[Place]] is kept. *)
Theorem replace_placeholders_keeps_unfilled :
  (forall (a n b : str) values,
      bracket_free n -> ~ In n (keys values) ->
      Forall (fun e => bracket_free (fst e)) values ->
      replace_placeholders (a ++ token n ++ b) values
      = replace_placeholders a values ++ token n
          ++ replace_placeholders b values)
  /\ replace_placeholders "Hello [Name], welcome to [Place]. [Name] again."
       [entry "Name" "Anu"]
     = ("Hello Anu, welcome to [Place]. Anu again." : str).
Proof.
  split; [|reflexivity].
  intros a n b values Hn Hk Hp. now apply replace_around_token.
Qed.

(** C7 at the body of the specification's example. *)
Lemma replace_placeholders_keeps_unfilled_witness :
  replace_placeholders
    ("Hello [Name], welcome to " ++ token "Place" ++ ". [Name] again.")
    [entry "Name" "Anu"]
  = replace_placeholders "Hello [Name], welcome to " [entry "Name" "Anu"]
      ++ token "Place"
      ++ replace_placeholders ". [Name] again." [entry "Name" "Anu"].
Proof.
  apply (proj1 replace_placeholders_keeps_unfilled).
  - apply bracket_freeb_sound. vm_compute. reflexivity.
  - vm_compute. intuition discriminate.
  - repeat constructor; apply has_not_In; vm_compute; reflexivity.
Defined.

(** C7 fails as stated.  In ["[[A]]"] the placeholder is [[A], which
    has no entry, yet the pass for [A] rewrites its inside.  In
    ["[A][B]"] neither [A] nor [B] has an entry, yet the entry named
    [A][B] takes both tokens away. *)
Lemma replace_placeholders_breaks_unfilled :
  extract_placeholders "[[A]]" = [("[A" : str)]
  /\ ~ In ("[A" : str) (keys [entry "A" "x"])
  /\ replace_placeholders "[[A]]" [entry "A" "x"] = ("[x]" : str)
  /\ ~ occurs_in (token "[A") (replace_placeholders "[[A]]" [entry "A" "x"])
  /\ extract_placeholders "[A][B]" = [("A" : str); ("B" : str)]
  /\ ~ In ("A" : str) (keys [entry "A][B" "x"])
  /\ ~ In ("B" : str) (keys [entry "A][B" "x"])
  /\ replace_placeholders "[A][B]" [entry "A][B" "x"] = ("x" : str).
Proof.
  repeat split; try (vm_compute; intuition discriminate).
  apply (not_occurs_without "A"%char); [|reflexivity].
  vm_compute. tauto.
Qed.

(** ** The empty mapping *)

(** C8.  With the empty mapping the body is returned as it is, for
    every body; the function is total, and it also returns the body as
    it is when no token of the mapping occurs in it. *)
Theorem replace_placeholders_empty (body : str) :
  replace_placeholders body [] = body
  /\ forall values,
      (forall k, In k (keys values) -> ~ occurs_in (token k) body) ->
      replace_placeholders body values = body.
Proof.
  split; [apply replace_placeholders_nil|].
  intros values H. now apply replace_disjoint.
Qed.

(** C8 at a body without the token of the mapping. *)
Lemma replace_placeholders_empty_witness :
  replace_placeholders "Hello [Name]" [entry "Place" "Kochi"]
  = ("Hello [Name]" : str).
Proof.
  apply (proj2 (replace_placeholders_empty "Hello [Name]")).
  intros k Hk. vm_compute in Hk. destruct Hk as [<-|[]].
  apply (not_occurs_without "P"%char); [|reflexivity].
  vm_compute. tauto.
Defined.

(** ** Lookup of an unknown template *)

(** C9.  A name that is not a key of the catalog is looked up as the
    empty string, from which nothing is extracted. *)
Theorem get_template_unknown (name : str) :
  ~ In name get_template_names ->
  get_template name = [] /\ extract_placeholders [] = [].
Proof.
  intros H. split; [|reflexivity].
  unfold get_template. now apply dict_get_absent.
Qed.

(** C9 at the name of the specification's example. *)
Lemma get_template_unknown_witness :
  get_template "nonexistent-template" = []
  /\ extract_placeholders [] = [].
Proof.
  apply get_template_unknown.
  intros H. apply mem_In in H. vm_compute in H. discriminate.
Defined.

(** ** What an extracted name looks like *)

(** C10.  Every extracted name is non-empty, holds no closing bracket,
    and occurs in the input between an opening and a closing bracket;
    the empty pair gives no placeholder. *)
Theorem extract_placeholders_names :
  (forall s n : str,
      In n (extract_placeholders s) ->
      n <> [] /\ ~ In rbr n /\ occurs_in (lbr :: n ++ [rbr]) s)
  /\ extract_placeholders "[]" = [].
Proof.
  split; [|reflexivity].
  intros s n H. apply extract_In_pairs in H. destruct H as [Hp Hne].
  split; [assumption|]. split.
  - now apply (pairs_closed s).
  - now apply pairs_occur.
Qed.

(** C10 at the body of the specification's example. *)
Lemma extract_placeholders_names_witness :
  ("Place" : str) <> []
  /\ ~ In rbr ("Place" : str)
  /\ occurs_in (lbr :: "Place" ++ [rbr])
       "Hello [Name], welcome to [Place]. [Name] again.".
Proof.
  apply (proj1 extract_placeholders_names).
  vm_compute. tauto.
Defined.

(** * Further properties of the code *)

(** ** Bodies built from text and fields *)

Lemma pairs_render (segs : list segment) (tail : str) :
  Forall well_formed segs -> ~ In rbr tail ->
  bracket_pairs (render segs ++ tail) = field_names segs.
Proof.
  intros Hw Ht. induction Hw as [|g segs Hg Hw IH].
  - now apply bracket_pairs_no_rbr.
  - unfold render, field_names. cbn [flat_map]. rewrite <- app_assoc.
    fold (render segs). fold (field_names segs).
    destruct g as [t|n]; cbn [render_segment well_formed] in *.
    + now rewrite bracket_pairs_no_lbr.
    + unfold token. cbn [app]. rewrite <- app_assoc. cbn [app].
      rewrite bracket_pairs_closed by apply Hg. now rewrite IH.
Qed.

Lemma render_flat (segs : list segment) (tail : str) :
  Forall well_formed segs -> ~ In rbr tail -> flat (render segs ++ tail).
Proof.
  intros Hw Ht n Hn. rewrite pairs_render in Hn by assumption.
  unfold field_names in Hn. apply in_flat_map in Hn.
  destruct Hn as (g & Hg & Hn). rewrite Forall_forall in Hw.
  apply Hw in Hg. destruct g as [t|m]; [destruct Hn|].
  destruct Hn as [<-|[]]. apply Hg.
Qed.

Lemma flat_is_rendered (s : str) :
  flat s ->
  exists segs tail,
    Forall well_formed segs /\ ~ In rbr tail /\ s = render segs ++ tail.
Proof.
  induction s as [|c s Hc IH|d Hd|n t Hn IH] using bracket_ind; intros Hs.
  - exists [], []. repeat split; [constructor | intros []].
  - destruct (IH (flat_other _ _ Hc Hs)) as (segs & tail & Hw & Ht & ->).
    exists (Text [c] :: segs), tail. repeat split; [|assumption].
    constructor; [|assumption]. intros [H|[]]. congruence.
  - exists [], (lbr :: d). repeat split; [constructor|].
    apply not_in_cons_iff. split; [exact lbr_neq_rbr | assumption].
  - destruct (flat_closed _ _ Hn Hs) as [Hl Hf].
    destruct (IH Hf) as (segs & tail & Hw & Ht & ->).
    exists (Field n :: segs), tail. repeat split; [|assumption|].
    + constructor; [now split | assumption].
    + unfold render. cbn [flat_map render_segment]. unfold token.
      cbn [app]. now rewrite <- !app_assoc.
Qed.

Lemma pass_render (k v : str) (segs : list segment) (tail : str) :
  ~ In rbr k -> Forall well_formed segs -> ~ In rbr tail ->
  pass (render segs ++ tail) (k, v) = render (map (fill_one k v) segs) ++ tail.
Proof.
  intros Hk Hw Ht. unfold pass. cbn [fst snd].
  induction Hw as [|g segs Hg Hw IH].
  - now apply replace_no_rbr.
  - unfold render. cbn [flat_map map]. rewrite <- !app_assoc.
    fold (render segs). fold (render (map (fill_one k v) segs)).
    destruct g as [t|n]; cbn [render_segment well_formed fill_one] in *.
    + rewrite replace_no_lbr by assumption. now rewrite IH.
    + destruct Hg as [Hl Hr]. unfold token at 1. cbn [app].
      rewrite <- app_assoc. cbn [app].
      destruct (str_eqb n k) eqn:E.
      * apply str_eqb_eq in E. subst n.
        rewrite replace_closed_same, IH. reflexivity.
      * apply str_eqb_neq in E.
        rewrite replace_closed_other, IH by (assumption || congruence).
        cbn [render_segment]. unfold token. cbn [app].
        now rewrite <- app_assoc.
Qed.

Lemma fill_one_well_formed (k v : str) (segs : list segment) :
  ~ In lbr v -> Forall well_formed segs ->
  Forall well_formed (map (fill_one k v) segs).
Proof.
  intros Hv Hw. induction Hw as [|g segs Hg Hw IH]; [constructor|].
  cbn [map]. constructor; [|assumption].
  destruct g as [t|n]; [exact Hg|].
  cbn [fill_one]. now destruct (str_eqb n k).
Qed.

Lemma fill_segment_cons (k v : str) (l : list (str * str)) (g : segment) :
  fill_segment l (fill_one k v g) = fill_segment ((k, v) :: l) g.
Proof.
  destruct g as [t|n]; [reflexivity|].
  cbn [fill_one fill_segment dict_get].
  destruct (str_eqb n k) eqn:E.
  - apply str_eqb_eq in E. subst n. now rewrite str_eqb_refl.
  - apply str_eqb_neq in E.
    assert (str_eqb k n = false) as -> by (apply str_eqb_neq; congruence).
    reflexivity.
Qed.

Lemma replace_render (values : list (str * str)) :
  Forall plain values ->
  forall (segs : list segment) (tail : str),
    Forall well_formed segs -> ~ In rbr tail ->
    replace_placeholders (render segs ++ tail) values
    = flat_map (fill_segment values) segs ++ tail.
Proof.
  induction 1 as [|[k v] l [Hk Hv] Hp IH]; intros segs tail Hw Ht.
  - reflexivity.
  - cbn [fst snd] in Hk, Hv.
    rewrite replace_placeholders_cons, pass_render by assumption.
    rewrite IH by (try apply fill_one_well_formed; assumption).
    f_equal. rewrite flat_map_concat_map, map_map, <- flat_map_concat_map.
    apply flat_map_ext. intros g. apply fill_segment_cons.
Qed.

(** ** Deduplication of distinct names *)


Lemma extract_after_replace (body : str) (values : list (str * str)) :
  flat body -> Forall plain values ->
  extract_placeholders (replace_placeholders body values)
  = filter (fun n => negb (mem n (keys values))) (extract_placeholders body).
Proof.
  intros Hf Hp. unfold extract_placeholders. rewrite !findall_pairs.
  destruct (replace_pairs values body Hp Hf) as [_ ->].
  rewrite <- (unique_loop_filter _ _ [] []). cbn [filter].
  f_equal. rewrite !filter_twice. apply filter_ext. intros n.
  apply andb_comm.
Qed.

(** ** More on [str.replace] *)

Lemma str_replace_chars (s old new : str) (c : ascii) :
  In c (str_replace s old new) -> In c s \/ In c new.
Proof.
  destruct old as [|a p] eqn:E.
  - unfold str_replace. intros H. apply in_app_iff in H.
    destruct H as [H|H]; [now right|].
    apply in_flat_map in H. destruct H as (x & Hx & [->|H]); tauto.
  - rewrite <- E. assert (old <> []) as Hne by (subst; discriminate).
    pattern s, (str_replace s old new). apply str_replace_ind; [assumption| | |].
    + intros [].
    + intros t r IH H. apply in_app_iff in H. destruct H as [H|H]; [tauto|].
      destruct (IH H); [left; apply in_or_app|]; tauto.
    + intros x u r _ IH [->|H]; [left; now left|].
      destruct (IH H); [left; now right | now right].
Qed.

Lemma str_replace_same (s old : str) : old <> [] -> str_replace s old old = s.
Proof.
  intros Hne. pattern s, (str_replace s old old).
  apply str_replace_ind; [assumption | reflexivity | |].
  - now intros t r ->.
  - now intros c u r _ ->.
Qed.

(** ** Counting brackets *)

Lemma count_occ_at_least (c : ascii) (x s : str) :
  count_occ ascii_dec s c <= count_occ ascii_dec (x ++ s) c.
Proof. rewrite count_occ_app. apply Nat.le_add_l. Qed.

Lemma findall_count (s : str) :
  length (re_findall pattern s) <= count_occ ascii_dec s lbr
  /\ length (re_findall pattern s) <= count_occ ascii_dec s rbr.
Proof.
  induction s as [|c s Hc [IH1 IH2]|d Hd|n t Hn [IH1 IH2]] using bracket_ind.
  - split; apply Nat.le_refl.
  - rewrite findall_other by assumption. split.
    + rewrite count_occ_cons_neq by assumption. exact IH1.
    + eapply Nat.le_trans; [exact IH2|]. apply (count_occ_at_least rbr [c]).
  - rewrite findall_unclosed by assumption. split; apply Nat.le_0_l.
  - rewrite findall_closed, length_app by assumption.
    assert (length (if nonempty n then [n] else []) <= 1) as H1
        by (destruct (nonempty n); cbn [length]; lia).
    split.
    + apply Nat.le_trans with (1 + count_occ ascii_dec t lbr);
        [now apply Nat.add_le_mono|].
      rewrite count_occ_cons_eq by reflexivity. apply le_n_S.
      replace (n ++ rbr :: t) with ((n ++ [rbr]) ++ t)
        by (now rewrite <- app_assoc).
      apply count_occ_at_least.
    + apply Nat.le_trans with (1 + count_occ ascii_dec t rbr);
        [now apply Nat.add_le_mono|].
      apply Nat.le_trans with (count_occ ascii_dec (rbr :: t) rbr).
      * rewrite count_occ_cons_eq by reflexivity. apply Nat.le_refl.
      * apply (count_occ_at_least rbr (lbr :: n) (rbr :: t)).
Qed.

Lemma unique_loop_length (ps seen out : list str) :
  length (unique_loop ps seen out) <= length out + length ps.
Proof.
  revert seen out. induction ps as [|p ps IH]; intros seen out.
  - cbn [unique_loop length]. apply Nat.le_add_r.
  - cbn [unique_loop length]. destruct (mem p seen).
    + eapply Nat.le_trans; [apply IH|]. lia.
    + eapply Nat.le_trans; [apply IH|].
      rewrite length_app. cbn [length]. lia.
Qed.

(** ** Lookup in the catalog *)

Lemma dict_get_hit (d : list (str * str)) (key v default : str) :
  NoDup (map fst d) -> In (key, v) d -> dict_get d key default = v.
Proof.
  induction d as [|[k w] d IH]; intros Hnd Hin; [destruct Hin|].
  cbn [map fst] in Hnd. apply NoDup_cons_iff in Hnd. destruct Hnd as [Hk Hnd].
  cbn [dict_get]. destruct Hin as [E|Hin].
  - injection E as -> ->. now rewrite str_eqb_refl.
  - destruct (str_eqb k key) eqn:E; [|now apply IH].
    apply str_eqb_eq in E. subst k. exfalso. apply Hk.
    now apply (in_map fst) in Hin.
Qed.

Lemma TEMPLATES_keys_NoDup : NoDup (map fst TEMPLATES).
Proof.
  repeat constructor; intros H; apply mem_In in H; vm_compute in H;
    discriminate.
Qed.

(** X1.  [get_template] returns the body stored under a registered
    name, and the empty string for exactly the names that are not
    registered: no template of the catalog is empty. *)
Theorem get_template_registered :
  (forall name body : str,
      In (name, body) TEMPLATES -> get_template name = body)
  /\ (forall name : str,
         get_template name = [] <-> ~ In name get_template_names).
Proof.
  assert (forall name body : str,
             In (name, body) TEMPLATES -> get_template name = body) as Hhit.
  { intros name body H. unfold get_template.
    apply dict_get_hit; [apply TEMPLATES_keys_NoDup | assumption]. }
  split; [exact Hhit|].
  intros name. split.
  - intros E Hin. unfold get_template_names in Hin. apply in_map_iff in Hin.
    destruct Hin as ([k body] & <- & Hin). cbn [fst] in E.
    rewrite (Hhit _ _ Hin) in E. subst body.
    repeat (destruct Hin as [Hin|Hin]; [discriminate Hin|]). destruct Hin.
  - intros H. unfold get_template. now apply dict_get_absent.
Qed.

(** X1 at the first name of the catalog. *)
Lemma get_template_registered_witness :
  get_template "Male Candidate - Regular Photo" = template_male_regular.
Proof.
  apply (proj1 get_template_registered). now left.
Defined.

(** X2.  After a substitution over a body without nested opening
    brackets, with plain entries, the placeholders left are those of
    the body that the mapping does not name, in their order; the new
    body has no nested opening bracket either. *)
Theorem extract_after_partial_replace (body : str) values :
  no_nested_open body -> Forall plain values ->
  extract_placeholders (replace_placeholders body values)
  = filter (fun n => negb (mem n (keys values))) (extract_placeholders body)
  /\ no_nested_open (replace_placeholders body values).
Proof.
  intros Hb Hp. apply no_nested_open_flat in Hb. split.
  - now apply extract_after_replace.
  - apply no_nested_open_flat. now apply (replace_pairs values body Hp Hb).
Qed.

(** X2 at the body of the specification's example. *)
Lemma extract_after_partial_replace_witness :
  extract_placeholders
    (replace_placeholders "Hello [Name], welcome to [Place]. [Name] again."
       [entry "Name" "Anu"])
  = filter (fun n => negb (mem n (keys [entry "Name" "Anu"])))
      (extract_placeholders "Hello [Name], welcome to [Place]. [Name] again.")
  /\ no_nested_open
       (replace_placeholders "Hello [Name], welcome to [Place]. [Name] again."
          [entry "Name" "Anu"]).
Proof.
  apply extract_after_partial_replace.
  - apply no_nested_openb_sound. vm_compute. reflexivity.
  - apply plainb_sound. vm_compute. reflexivity.
Defined.

(** X3.  On a body built from text without opening brackets, tokens of
    bracket-free names and a tail without closing bracket, the loop of
    passes is one simultaneous substitution: every field takes the
    value that the mapping holds for its name and keeps its token
    when there is none, and the text is left alone. *)
Theorem replace_placeholders_simultaneous
        (segs : list segment) (tail : str) values :
  Forall well_formed segs -> ~ In rbr tail -> Forall plain values ->
  replace_placeholders (render segs ++ tail) values
  = flat_map (fill_segment values) segs ++ tail.
Proof. intros Hw Ht Hp. now apply replace_render. Qed.

(** X3 at a body of two fields, one of them without a value. *)
Lemma replace_placeholders_simultaneous_witness :
  replace_placeholders
    (render [Text "Hello "; Field "Name"; Text ", welcome to ";
             Field "Place"] ++ " [")
    [entry "Name" "Anu"]
  = flat_map (fill_segment [entry "Name" "Anu"])
      [Text "Hello "; Field "Name"; Text ", welcome to "; Field "Place"]
      ++ " [".
Proof.
  apply replace_placeholders_simultaneous.
  - repeat constructor; apply has_not_In; vm_compute; reflexivity.
  - apply has_not_In. vm_compute. reflexivity.
  - apply plainb_sound. vm_compute. reflexivity.
Defined.



(** X5.  The bodies built in this way are exactly the bodies in which
    no placeholder has an opening bracket in its name. *)
Theorem no_nested_open_rendered (body : str) :
  no_nested_open body <->
  exists segs tail,
    Forall well_formed segs /\ ~ In rbr tail /\ body = render segs ++ tail.
Proof.
  rewrite no_nested_open_flat. split.
  - apply flat_is_rendered.
  - intros (segs & tail & Hw & Ht & ->). now apply render_flat.
Qed.

(** X5 at the body of the specification's example. *)
Lemma no_nested_open_rendered_witness :
  exists segs tail,
    Forall well_formed segs /\ ~ In rbr tail
    /\ list_ascii_of_string "Hello [Name], welcome to [Place]."
       = render segs ++ tail.
Proof.
  apply (proj1 (no_nested_open_rendered "Hello [Name], welcome to [Place].")).
  apply no_nested_openb_sound. vm_compute. reflexivity.
Defined.

(** X6.  A substitution invents no character: every character of the
    result is a character of the body or of one of the values. *)
Theorem replace_placeholders_chars (body : str) values (c : ascii) :
  In c (replace_placeholders body values) ->
  In c body \/ exists v, In v (map snd values) /\ In c v.
Proof.
  revert body. induction values as [|[k v] l IH]; intros body H.
  - now left.
  - rewrite replace_placeholders_cons in H. apply IH in H.
    destruct H as [H|(w & Hw & Hc)].
    + unfold pass in H. cbn [fst snd] in H. apply str_replace_chars in H.
      destruct H as [H|H]; [now left|].
      right. exists v. split; [now left | assumption].
    + right. exists w. split; [now right | assumption].
Qed.

(** X6 at the body of the specification's example. *)
Lemma replace_placeholders_chars_witness :
  In "A"%char (list_ascii_of_string "Hello [Name]")
  \/ exists v, In v (map snd [entry "Name" "Anu"]) /\ In "A"%char v.
Proof.
  apply (replace_placeholders_chars "Hello [Name]" [entry "Name" "Anu"]).
  vm_compute. tauto.
Defined.

(** X7.  There are no more placeholders than opening brackets in the
    input, and no more than closing brackets. *)
Theorem extract_placeholders_count (s : str) :
  length (extract_placeholders s) <= count_occ ascii_dec s lbr
  /\ length (extract_placeholders s) <= count_occ ascii_dec s rbr.
Proof.
  assert (length (extract_placeholders s) <= length (re_findall pattern s))
    as H by apply (unique_loop_length _ [] []).
  destruct (findall_count s) as [H1 H2].
  split; eapply Nat.le_trans; eassumption.
Qed.

(** X8.  An entry whose value is the token of its own name changes
    nothing, whatever the body. *)
Theorem replace_placeholders_own_token (body : str) values :
  (forall k v, In (k, v) values -> v = token k) ->
  replace_placeholders body values = body.
Proof.
  revert body. induction values as [|[k v] l IH]; intros body H.
  - reflexivity.
  - rewrite replace_placeholders_cons. unfold pass. cbn [fst snd].
    rewrite (H k v) by now left.
    rewrite str_replace_same by apply token_nonempty.
    apply IH. intros k' v' Hin. apply H. now right.
Qed.

(** X8 at the body of the specification's example. *)
Lemma replace_placeholders_own_token_witness :
  replace_placeholders "Hello [Name], welcome to [Place]."
    [entry "Name" "[Name]"]
  = ("Hello [Name], welcome to [Place]." : str).
Proof.
  apply replace_placeholders_own_token.
  intros k v [E|[]]. injection E as <- <-. reflexivity.
Defined.

(** ** Tokens of a body without nested opening brackets *)

Lemma app_lbr_split (a x m t : str) :
  ~ In lbr m -> a ++ lbr :: x = m ++ rbr :: t ->
  exists a', a = m ++ rbr :: a' /\ t = a' ++ lbr :: x.
Proof.
  revert a. induction m as [|c m IH]; intros a Hm E.
  - destruct a as [|c a]; cbn [app] in E.
    + injection E as E _. exfalso. now apply lbr_neq_rbr.
    + injection E as -> E. now exists a.
  - apply not_in_cons_iff in Hm. destruct Hm as [Hc Hm].
    destruct a as [|c' a]; cbn [app] in E.
    + injection E as E _. congruence.
    + injection E as -> E. destruct (IH a Hm E) as (a' & -> & ->).
      now exists a'.
Qed.

Lemma occurs_pairs (s n : str) :
  flat s -> ~ In rbr n -> occurs_in (token n) s -> In n (bracket_pairs s).
Proof.
  intros Hs Hn. revert Hs.
  induction s as [|c s Hc IH|d Hd|m t Hm IH] using bracket_ind;
    intros Hs (a & b & E).
  - destruct a; discriminate.
  - rewrite bracket_pairs_other by assumption.
    destruct a as [|c' a]; cbn [app] in E.
    + unfold token in E. cbn [app] in E. injection E as E _. congruence.
    + injection E as _ E. apply IH; [now apply flat_other in Hs|].
      now exists a, b.
  - exfalso.
    assert (In rbr (lbr :: d)) as H.
    { rewrite E. apply in_or_app. right. apply in_or_app. left.
      apply token_has_rbr. }
    destruct H as [H|H]; [now apply lbr_neq_rbr | contradiction].
  - destruct (flat_closed _ _ Hm Hs) as [Hl Ht].
    rewrite bracket_pairs_closed by assumption.
    destruct a as [|c' a]; cbn [app] in E.
    + unfold token in E. cbn [app] in E. injection E as E.
      rewrite <- app_assoc in E. cbn [app] in E. symmetry in E.
      apply closed_prefix_eq in E; [|assumption|assumption].
      left. symmetry. apply E.
    + injection E as _ E. unfold token in E. cbn [app] in E.
      symmetry in E. apply app_lbr_split in E; [|assumption].
      destruct E as (a' & _ & E). right. apply IH; [assumption|].
      exists a', b. rewrite E. unfold token. reflexivity.
Qed.

(** X9.  In a body without nested opening brackets, a non-empty name
    without closing bracket is extracted exactly when its token occurs
    in the body. *)
Theorem extract_placeholders_complete (s n : str) :
  no_nested_open s -> n <> [] -> ~ In rbr n ->
  (In n (extract_placeholders s) <-> occurs_in (token n) s).
Proof.
  intros Hs Hne Hn. apply no_nested_open_flat in Hs.
  rewrite extract_In_pairs. split.
  - intros [H _]. now apply pairs_occur.
  - intros H. split; [now apply occurs_pairs | assumption].
Qed.

(** X9 at the body of the specification's example. *)
Lemma extract_placeholders_complete_witness :
  In ("Place" : str)
     (extract_placeholders "Hello [Name], welcome to [Place]. [Name] again.")
  <-> occurs_in (token "Place")
        "Hello [Name], welcome to [Place]. [Name] again.".
Proof.
  apply extract_placeholders_complete.
  - apply no_nested_openb_sound. vm_compute. reflexivity.
  - discriminate.
  - apply has_not_In. vm_compute. reflexivity.
Defined.

(** X10.  After a substitution with plain entries over a body without
    nested opening brackets, the token of no entry occurs in the
    result. *)
Theorem replace_placeholders_removes_tokens (body : str) values (k : str) :
  no_nested_open body -> Forall plain values -> In k (keys values) ->
  ~ occurs_in (token k) (replace_placeholders body values).
Proof.
  intros Hb Hp Hk Ho. apply no_nested_open_flat in Hb.
  destruct (replace_pairs values body Hp Hb) as [Hf He].
  assert (~ In rbr k) as Hr.
  { unfold keys in Hk. apply in_map_iff in Hk.
    destruct Hk as (e & <- & He'). rewrite Forall_forall in Hp.
    apply (Hp e He'). }
  apply occurs_pairs in Ho; [|assumption|assumption].
  rewrite He in Ho. apply filter_In in Ho. destruct Ho as [_ Hc].
  apply mem_In in Hk. rewrite Hk in Hc. discriminate.
Qed.

(** X10 at the body of the specification's example. *)
Lemma replace_placeholders_removes_tokens_witness :
  ~ occurs_in (token "Name")
      (replace_placeholders "Hello [Name], welcome to [Place]. [Name] again."
         [entry "Name" "Anu"]).
Proof.
  apply replace_placeholders_removes_tokens.
  - apply no_nested_openb_sound. vm_compute. reflexivity.
  - apply plainb_sound. vm_compute. reflexivity.
  - now left.
Defined.

(** ** Dicts *)

Section DictFacts.
Context {V : Type}.
Implicit Types (d : list (str * V)) (k : str) (v : V).

Lemma dict_find_absent d k : ~ In k (map fst d) -> dict_find d k = None.
Proof.
  induction d as [|[k' v'] d IH]; intros H; [reflexivity|].
  cbn [map fst] in H. apply not_in_cons_iff in H. destruct H as [Hk H].
  cbn [dict_find]. apply str_eqb_neq in Hk. rewrite Hk. now apply IH.
Qed.

Lemma dict_find_set_same d k v : dict_find (dict_set d k v) k = Some v.
Proof.
  induction d as [|[k' v'] d IH]; cbn [dict_set dict_find].
  - now rewrite str_eqb_refl.
  - destruct (str_eqb k' k) eqn:E; cbn [dict_find]; now rewrite E.
Qed.

Lemma dict_find_set_other d k k' v :
  k <> k' -> dict_find (dict_set d k v) k' = dict_find d k'.
Proof.
  intros Hne. induction d as [|[k0 v0] d IH]; cbn [dict_set dict_find].
  - apply str_eqb_neq in Hne. now rewrite Hne.
  - destruct (str_eqb k0 k) eqn:E; cbn [dict_find].
    + apply str_eqb_eq in E. subst k0.
      apply str_eqb_neq in Hne. now rewrite Hne.
    + now rewrite IH.
Qed.

Lemma dict_set_keys d k v :
  map fst (dict_set d k v)
  = if mem k (map fst d) then map fst d else map fst d ++ [k].
Proof.
  induction d as [|[k' v'] d IH]; [reflexivity|].
  cbn [dict_set map fst mem existsb].
  destruct (str_eqb k' k) eqn:E.
  - apply str_eqb_eq in E. subst k'. now rewrite str_eqb_refl.
  - assert (str_eqb k k' = false) as ->
        by (apply str_eqb_neq; apply str_eqb_neq in E; congruence).
    cbn [map fst orb]. rewrite IH. fold (mem k (map fst d)).
    now destruct (mem k (map fst d)).
Qed.

Lemma dict_set_NoDup d k v :
  NoDup (map fst d) -> NoDup (map fst (dict_set d k v)).
Proof.
  intros H. rewrite dict_set_keys. destruct (mem k (map fst d)) eqn:E.
  - assumption.
  - apply mem_not_In in E. apply NoDup_app; [assumption | |].
    + repeat constructor. intros [].
    + intros x Hx [->|[]]. contradiction.
Qed.

Lemma dict_set_fresh d k v :
  ~ In k (map fst d) -> dict_set d k v = d ++ [(k, v)].
Proof.
  induction d as [|[k' v'] d IH]; intros H; [reflexivity|].
  cbn [map fst] in H. apply not_in_cons_iff in H. destruct H as [Hk H].
  cbn [dict_set]. apply str_eqb_neq in Hk. rewrite Hk.
  cbn [app]. now rewrite IH.
Qed.

Lemma dict_find_del_same d k :
  NoDup (map fst d) -> dict_find (dict_del d k) k = None.
Proof.
  induction d as [|[k' v'] d IH]; intros Hnd; [reflexivity|].
  cbn [map fst] in Hnd. apply NoDup_cons_iff in Hnd.
  destruct Hnd as [Hk Hnd]. cbn [dict_del].
  destruct (str_eqb k' k) eqn:E.
  - apply str_eqb_eq in E. subst k'. now apply dict_find_absent.
  - cbn [dict_find]. rewrite E. now apply IH.
Qed.

Lemma dict_find_del_other d k k' :
  k <> k' -> dict_find (dict_del d k) k' = dict_find d k'.
Proof.
  intros Hne. induction d as [|[k0 v0] d IH]; [reflexivity|].
  cbn [dict_del dict_find]. destruct (str_eqb k0 k) eqn:E.
  - apply str_eqb_eq in E. subst k0.
    apply str_eqb_neq in Hne. now rewrite Hne.
  - cbn [dict_find]. now rewrite IH.
Qed.
End DictFacts.

(** ** The form *)

Lemma placeholder_values_loop_fresh (typed : str -> str)
      (placeholders : list str) (d : list (str * str)) :
  NoDup placeholders ->
  (forall p, In p placeholders -> ~ In p (map fst d)) ->
  placeholder_values_loop placeholders typed d
  = d ++ map (fun p => (p, typed p)) placeholders.
Proof.
  revert d. induction placeholders as [|p ps IH]; intros d Hnd Hf.
  - cbn [placeholder_values_loop map]. now rewrite app_nil_r.
  - apply NoDup_cons_iff in Hnd. destruct Hnd as [Hp Hnd].
    cbn [placeholder_values_loop map].
    rewrite dict_set_fresh by (apply Hf; now left).
    rewrite IH, <- app_assoc; [reflexivity | assumption |].
    intros q Hq. rewrite map_app, in_app_iff. cbn [map fst In].
    intros [H|[->|[]]]; [|contradiction].
    apply (Hf q); [now right | assumption].
Qed.

Lemma extract_NoDup (s : str) : NoDup (extract_placeholders s).
Proof. apply unique_loop_NoDup; [constructor | intros x []]. Qed.

Lemma placeholder_values_of_map (template : str) (typed : str -> str) :
  placeholder_values_of template typed
  = map (fun p => (p, typed p)) (extract_placeholders template).
Proof.
  unfold placeholder_values_of.
  rewrite placeholder_values_loop_fresh;
    [reflexivity | apply extract_NoDup | intros p _ []].
Qed.

Lemma dict_get_map (typed : str -> str) (l : list str) (n default : str) :
  In n l -> dict_get (map (fun p => (p, typed p)) l) n default = typed n.
Proof.
  induction l as [|p l IH]; intros H; [destruct H|].
  cbn [map dict_get]. destruct (str_eqb p n) eqn:E.
  - apply str_eqb_eq in E. now subst.
  - apply str_eqb_neq in E. destruct H as [H|H]; [contradiction|].
    now apply IH.
Qed.

Lemma filter_not_mem_self (l : list str) :
  filter (fun n => negb (mem n l)) l = [].
Proof.
  assert (forall l' : list str,
             (forall x, In x l' -> In x l) ->
             filter (fun n => negb (mem n l)) l' = []) as H.
  { induction l' as [|x l' IH]; intros Hsub; [reflexivity|].
    cbn [filter].
    assert (mem x l = true) as -> by (apply mem_In, Hsub; now left).
    cbn [negb]. apply IH. intros y Hy. apply Hsub. now right. }
  apply H. auto.
Qed.

Lemma preview_prompt_no_placeholder (template : str) (typed : str -> str) :
  no_nested_open template ->
  (forall n, In n (extract_placeholders template) -> ~ In lbr (typed n)) ->
  extract_placeholders (preview_prompt template typed) = [].
Proof.
  intros Hb Ht. unfold preview_prompt.
  rewrite placeholder_values_of_map.
  rewrite extract_after_replace.
  - unfold keys. rewrite map_map. cbn [fst]. rewrite map_id.
    apply filter_not_mem_self.
  - now apply no_nested_open_flat.
  - apply Forall_forall. intros [k v] H. apply in_map_iff in H.
    destruct H as (p & E & Hp). injection E as <- <-. split; cbn [fst snd].
    + apply (pairs_closed template). now apply extract_In_pairs in Hp.
    + now apply Ht.
Qed.

Lemma enumerate_from_In {X : Type} (l : list X) (a i : nat) (x : X) :
  In (i, x) (combine (seq a (length l)) l) ->
  a <= i /\ nth_error l (i - a) = Some x.
Proof.
  revert a. induction l as [|y l IH]; intros a H; [destruct H|].
  cbn [length seq combine] in H. destruct H as [E|H].
  - injection E as <- <-. rewrite Nat.sub_diag. split; [lia | reflexivity].
  - apply IH in H. destruct H as [Hle Hn]. split; [lia|].
    replace (i - a) with (S (i - S a)) by lia. exact Hn.
Qed.

Lemma nth_error_firstn_Some {X : Type} (n : nat) (l : list X) (i : nat)
      (x : X) :
  nth_error (firstn n l) i = Some x -> i < n /\ nth_error l i = Some x.
Proof.
  revert l i. induction n as [|n IH]; intros l i H.
  - cbn [firstn] in H. destruct i; discriminate.
  - destruct l as [|y l]; [destruct i; discriminate|].
    cbn [firstn] in H. destruct i as [|i].
    + split; [lia | exact H].
    + cbn [nth_error] in H. apply IH in H. destruct H. split; [lia|].
      assumption.
Qed.

Lemma flat_map_ext_in {X Y : Type} (f g : X -> list Y) (l : list X) :
  (forall x, In x l -> f x = g x) -> flat_map f l = flat_map g l.
Proof.
  induction l as [|x l IH]; intros H; [reflexivity|].
  cbn [flat_map]. rewrite (H x) by now left.
  f_equal. apply IH. intros y Hy. apply H. now right.
Qed.

Lemma field_names_In (segs : list segment) (n : str) :
  In (Field n) segs -> In n (field_names segs).
Proof.
  intros H. unfold field_names. apply in_flat_map.
  exists (Field n). split; [assumption | now left].
Qed.


(** ** [app.py] *)

(** X11.  The form gives [replace_placeholders] a complete mapping: one
    entry for each extracted placeholder, in the order of extraction,
    holding what was typed into the field of that placeholder. *)
Theorem placeholder_values_complete (template : str) (typed : str -> str) :
  placeholder_values_of template typed
  = map (fun p => (p, typed p)) (extract_placeholders template)
  /\ keys (placeholder_values_of template typed)
     = extract_placeholders template
  /\ forall n default,
      In n (extract_placeholders template) ->
      dict_get (placeholder_values_of template typed) n default = typed n.
Proof.
  rewrite placeholder_values_of_map. split; [reflexivity|]. split.
  - unfold keys. rewrite map_map. cbn [fst]. apply map_id.
  - intros n default H. now apply dict_get_map.
Qed.

(** X11 at the body of the specification's example. *)
Lemma placeholder_values_complete_witness :
  dict_get
    (placeholder_values_of "Hello [Name], welcome to [Place]. [Name] again."
       (fun p => p ++ "!"))
    "Place" "" = "Place" ++ "!".
Proof.
  apply (proj2 (proj2 (placeholder_values_complete
                         "Hello [Name], welcome to [Place]. [Name] again."
                         (fun p => p ++ "!")))).
  vm_compute. tauto.
Defined.

(** X12.  The prompt shown in the preview has no placeholder left when
    the template nests no opening bracket in a placeholder and nothing
    typed into the form holds an opening bracket; this is so for every
    template that can be selected from the catalog. *)
Theorem preview_prompt_filled :
  (forall (template : str) (typed : str -> str),
      no_nested_open template ->
      (forall n, In n (extract_placeholders template) ->
                 ~ In lbr (typed n)) ->
      extract_placeholders (preview_prompt template typed) = [])
  /\ (forall (selected_template : str) (typed : str -> str),
         In selected_template get_template_names ->
         (forall n, ~ In lbr (typed n)) ->
         extract_placeholders
           (preview_prompt (get_template selected_template) typed) = []).
Proof.
  split.
  - intros template typed Hb Ht. now apply preview_prompt_no_placeholder.
  - intros selected typed Hin Ht.
    unfold get_template_names in Hin. apply in_map_iff in Hin.
    destruct Hin as ([name body] & <- & Hin). cbn [fst].
    unfold get_template.
    rewrite (dict_get_hit TEMPLATES name body "" TEMPLATES_keys_NoDup Hin).
    apply preview_prompt_no_placeholder; [|now intros n _].
    pose proof catalog_no_nested_open as Hc. rewrite Forall_forall in Hc.
    apply (Hc (name, body) Hin).
Qed.

(** X12 at the first template of the catalog, each field filled with
    the name of its placeholder. *)
Lemma preview_prompt_filled_witness :
  extract_placeholders
    (preview_prompt (get_template "Male Candidate - Regular Photo")
       (fun p => if has lbr p then [] else p)) = [].
Proof.
  apply (proj2 preview_prompt_filled).
  - now left.
  - intros n. destruct (has lbr n) eqn:E; [intros [] | now apply has_not_In].
Defined.

(** X13.  For a body built from text and fields, the preview is the
    body with every named field replaced by what was typed for its
    name, provided nothing typed holds an opening bracket; text, empty
    pairs and the tail are shown as they are. *)
Theorem preview_prompt_rendered (segs : list segment) (tail : str)
        (typed : str -> str) :
  Forall well_formed segs -> ~ In rbr tail ->
  (forall n, In n (field_names segs) -> ~ In lbr (typed n)) ->
  preview_prompt (render segs ++ tail) typed
  = flat_map (fill_typed typed) segs ++ tail.
Proof.
  intros Hw Ht Hty. unfold preview_prompt.
  assert (forall n, In n (extract_placeholders (render segs ++ tail)) <->
                    In n (field_names segs) /\ n <> []) as Hnames.
  { intros n. rewrite extract_In_pairs. now rewrite pairs_render. }
  rewrite replace_render; try assumption.
  - f_equal. apply flat_map_ext_in. intros [t|n] Hg; [reflexivity|].
    cbn [fill_segment]. rewrite placeholder_values_of_map.
    destruct n as [|c n].
    + cbn [fill_typed]. apply dict_get_absent.
      rewrite map_map. cbn [fst]. rewrite map_id.
      intros H. apply Hnames in H. now destruct H.
    + cbn [fill_typed]. apply dict_get_map. apply Hnames.
      split; [now apply field_names_In | discriminate].
  - rewrite placeholder_values_of_map. apply Forall_forall.
    intros [k v] H. apply in_map_iff in H.
    destruct H as (p & E & Hp). injection E as <- <-.
    apply Hnames in Hp. destruct Hp as [Hp _]. split; cbn [fst snd].
    + apply (pairs_closed (render segs ++ tail)).
      now rewrite pairs_render.
    + now apply Hty.
Qed.

(** X13 at a body of two fields. *)
Lemma preview_prompt_rendered_witness :
  preview_prompt
    (render [Text "Hello "; Field "Name"; Text ", welcome to ";
             Field "Place"] ++ " [")
    (fun p => p ++ "!")
  = flat_map (fill_typed (fun p => p ++ "!"))
      [Text "Hello "; Field "Name"; Text ", welcome to "; Field "Place"]
      ++ " [".
Proof.
  apply preview_prompt_rendered.
  - repeat constructor; apply has_not_In; vm_compute; reflexivity.
  - apply has_not_In. vm_compute. reflexivity.
  - intros n Hn. apply has_not_In. vm_compute in Hn.
    destruct Hn as [<-|[<-|[]]]; vm_compute; reflexivity.
Defined.

(** X14.  With the mapping of the form, the generate button goes on to
    the request exactly when the API key is not empty, there is at
    least one image, and no field of an extracted placeholder was left
    empty. *)
Theorem generate_gate_form {Img : Type} (api_key : str)
        (images_to_use : list Img) (template : str) (typed : str -> str) :
  generate_gate api_key images_to_use (placeholder_values_of template typed)
  = Generate
  <-> api_key <> [] /\ images_to_use <> []
      /\ forall n, In n (extract_placeholders template) -> typed n <> [].
Proof.
  unfold generate_gate.
  rewrite placeholder_values_of_map, map_map. cbn [snd].
  assert (forallb nonempty (map typed (extract_placeholders template)) = true
          <-> forall n, In n (extract_placeholders template) -> typed n <> [])
    as Hall.
  { rewrite forallb_forall. split.
    - intros H n Hn E. specialize (H (typed n) (in_map typed _ _ Hn)).
      rewrite E in H. discriminate.
    - intros H v Hv. apply in_map_iff in Hv. destruct Hv as (n & <- & Hn).
      specialize (H n Hn). now destruct (typed n). }
  destruct api_key as [|c k]; cbn [nonempty negb].
  - split; [discriminate | intros [H _]; congruence].
  - destruct images_to_use as [|i l].
    + split; [discriminate | intros (_ & H & _); congruence].
    + destruct (forallb nonempty (map typed (extract_placeholders template)));
        cbn [negb]; split.
      * intros _. repeat split; try discriminate. now apply Hall.
      * reflexivity.
      * discriminate.
      * intros (_ & _ & H). apply Hall in H. discriminate.
Qed.

(** X14 with a key, one image and every field filled. *)
Lemma generate_gate_form_witness :
  generate_gate "key" [0] (placeholder_values_of "Hello [Name]" (fun p => p))
  = Generate.
Proof.
  apply generate_gate_form. repeat split; try discriminate.
  intros n Hn. apply extract_In_pairs in Hn. tauto.
Defined.

(** X17.  Every thumbnail is drawn in a column that exists and shows
    the image at its own position in the list; there are as many
    thumbnails as columns, the thumbnails and the images counted in
    the note below them make up the whole list, and a list that is
    not empty asks for at least one column. *)
Theorem thumbnails_in_bounds {Img : Type} (images_to_use : list Img) :
  (forall idx file,
      In (idx, file) (thumbnails images_to_use) ->
      idx < thumbnail_columns images_to_use
      /\ nth_error images_to_use idx = Some file)
  /\ length (thumbnails images_to_use) = thumbnail_columns images_to_use
  /\ length (thumbnails images_to_use) + (length images_to_use - 3)
     = length images_to_use
  /\ (images_to_use <> [] -> 0 < thumbnail_columns images_to_use).
Proof.
  assert (length (thumbnails images_to_use) = thumbnail_columns images_to_use)
    as Hlen.
  { unfold thumbnails, enumerate, thumbnail_columns.
    rewrite length_combine, length_seq, Nat.min_id, length_firstn.
    apply Nat.min_comm. }
  split; [|split; [exact Hlen|split]].
  - intros idx file H. unfold thumbnails, enumerate in H.
    apply enumerate_from_In in H. destruct H as [_ H].
    rewrite Nat.sub_0_r in H.
    assert (idx < length (firstn 3 images_to_use)) as Hlt
        by (apply nth_error_Some; congruence).
    apply nth_error_firstn_Some in H. destruct H as [_ H].
    split; [|exact H].
    unfold thumbnail_columns. rewrite length_firstn in Hlt. lia.
  - rewrite Hlen. unfold thumbnail_columns. lia.
  - intros Hne. unfold thumbnail_columns.
    destruct images_to_use; [congruence | cbn [length]; lia].
Qed.

(** X17 at a list of five images. *)
Lemma thumbnails_in_bounds_witness :
  2 < thumbnail_columns [10; 11; 12; 13; 14]
  /\ nth_error [10; 11; 12; 13; 14] 2 = Some 12.
Proof.
  apply (proj1 (thumbnails_in_bounds [10; 11; 12; 13; 14])).
  right. right. now left.
Defined.

(** ** The password gate *)

(** X15.  When the session state holds the entered password, the
    callback makes [check_password] return whether it equals
    [DEFAULT_PASSWORD], and touches no other key but [password]: a
    right password is removed from the session state, so that a second
    call raises [KeyError]; a wrong password stays in the session
    state. *)
Theorem password_entered_effect (session_state : list (str * value))
        (entered : str) :
  NoDup (map fst session_state) ->
  dict_find session_state "password" = Some (VStr entered) ->
  exists after,
    password_entered session_state = Some after
    /\ check_password after = Some (str_eqb entered DEFAULT_PASSWORD)
    /\ (entered = DEFAULT_PASSWORD ->
        dict_find after "password" = None /\ password_entered after = None)
    /\ (entered <> DEFAULT_PASSWORD ->
        dict_find after "password" = Some (VStr entered))
    /\ forall key : str,
        key <> "password" -> key <> "authenticated" ->
        dict_find after key = dict_find session_state key.
Proof.
  intros Hnd Hpw. unfold password_entered at 1. rewrite Hpw.
  cbn [value_eq_str].
  assert (list_ascii_of_string "authenticated"
          <> list_ascii_of_string "password") as Hkeys by discriminate.
  destruct (str_eqb entered DEFAULT_PASSWORD) eqn:E.
  - eexists. split; [reflexivity|].
    assert (dict_find
              (dict_del (dict_set session_state "authenticated" (VBool true))
                 "password") "password" = None) as Hdel
        by (apply dict_find_del_same, dict_set_NoDup, Hnd).
    split; [|split; [|split]].
    + unfold check_password.
      rewrite dict_find_del_other by congruence.
      now rewrite dict_find_set_same.
    + intros _. split; [exact Hdel|].
      unfold password_entered. now rewrite Hdel.
    + intros Hne. apply str_eqb_eq in E. contradiction.
    + intros key H1 H2. rewrite dict_find_del_other by congruence.
      apply dict_find_set_other. congruence.
  - eexists. split; [reflexivity|]. split; [|split; [|split]].
    + unfold check_password. now rewrite dict_find_set_same.
    + intros ->. rewrite str_eqb_refl in E. discriminate.
    + intros _. now rewrite dict_find_set_other.
    + intros key H1 H2. apply dict_find_set_other. congruence.
Qed.

(** X15 at a session state as the script initialises it, with the
    right password entered. *)
Lemma password_entered_effect_witness :
  exists after,
    password_entered
      [ (list_ascii_of_string "generated_images", VList []);
        (list_ascii_of_string "api_key", VStr []);
        (list_ascii_of_string "authenticated", VBool false);
        (list_ascii_of_string "password", VStr DEFAULT_PASSWORD) ]
    = Some after
    /\ check_password after
       = Some (str_eqb DEFAULT_PASSWORD DEFAULT_PASSWORD)
    /\ (DEFAULT_PASSWORD = DEFAULT_PASSWORD ->
        dict_find after "password" = None /\ password_entered after = None)
    /\ (DEFAULT_PASSWORD <> DEFAULT_PASSWORD ->
        dict_find after "password" = Some (VStr DEFAULT_PASSWORD))
    /\ forall key : str,
        key <> "password" -> key <> "authenticated" ->
        dict_find after key
        = dict_find
            [ (list_ascii_of_string "generated_images", VList []);
              (list_ascii_of_string "api_key", VStr []);
              (list_ascii_of_string "authenticated", VBool false);
              (list_ascii_of_string "password", VStr DEFAULT_PASSWORD) ]
            key.
Proof.
  apply password_entered_effect.
  - repeat constructor; intros H; apply mem_In in H; vm_compute in H;
      discriminate.
  - reflexivity.
Defined.

(** ** The session state across reruns *)

Lemma set_if_absent_find (ss : list (str * value)) (key k : str)
      (v w : value) :
  dict_find ss k = Some w -> dict_find (set_if_absent ss key v) k = Some w.
Proof.
  intros H. unfold set_if_absent.
  destruct (dict_find ss key) eqn:E; [assumption|].
  destruct (str_dec key k) as [->|Hne]; [congruence|].
  now rewrite dict_find_set_other.
Qed.

Lemma set_if_absent_present (ss : list (str * value)) (key : str)
      (v : value) :
  exists w, dict_find (set_if_absent ss key v) key = Some w.
Proof.
  unfold set_if_absent. destruct (dict_find ss key) eqn:E.
  - rewrite E. now eexists.
  - rewrite dict_find_set_same. now eexists.
Qed.

Lemma set_if_absent_fixed (ss : list (str * value)) (key : str)
      (v w : value) :
  dict_find ss key = Some w -> set_if_absent ss key v = ss.
Proof. intros H. unfold set_if_absent. now rewrite H. Qed.

(** X16.  The initialisation never overwrites a key that the session
    state holds, so a rerun of the script keeps an authenticated
    session authenticated; running it twice is running it once; after
    it, [check_password] never raises, and in a fresh session it
    returns [False]. *)
Theorem init_session_state_keeps (configured_api_key : value)
        (session_state : list (str * value)) :
  (forall key v,
      dict_find session_state key = Some v ->
      dict_find (init_session_state configured_api_key session_state) key
      = Some v)
  /\ init_session_state configured_api_key
       (init_session_state configured_api_key session_state)
     = init_session_state configured_api_key session_state
  /\ (exists b,
         check_password (init_session_state configured_api_key session_state)
         = Some b)
  /\ check_password (init_session_state configured_api_key []) = Some false.
Proof.
  split; [|split; [|split]].
  - intros key v H. unfold init_session_state.
    do 3 apply set_if_absent_find. exact H.
  - unfold init_session_state.
    set (s1 := set_if_absent session_state "generated_images" (VList [])).
    set (s2 := set_if_absent s1 "api_key" configured_api_key).
    set (s3 := set_if_absent s2 "authenticated" (VBool false)).
    destruct (set_if_absent_present session_state "generated_images"
                (VList [])) as [w1 H1]. fold s1 in H1.
    destruct (set_if_absent_present s1 "api_key" configured_api_key)
      as [w2 H2]. fold s2 in H2.
    destruct (set_if_absent_present s2 "authenticated" (VBool false))
      as [w3 H3]. fold s3 in H3.
    assert (dict_find s3 "generated_images" = Some w1) as G1
        by (unfold s3, s2; do 2 apply set_if_absent_find; exact H1).
    assert (dict_find s3 "api_key" = Some w2) as G2
        by (unfold s3; apply set_if_absent_find; exact H2).
    rewrite (set_if_absent_fixed s3 _ _ _ G1).
    rewrite (set_if_absent_fixed s3 _ _ _ G2).
    now rewrite (set_if_absent_fixed s3 _ _ _ H3).
  - unfold check_password, init_session_state.
    destruct (set_if_absent_present
                (set_if_absent
                   (set_if_absent session_state "generated_images" (VList []))
                   "api_key" configured_api_key)
                "authenticated" (VBool false)) as [w H].
    rewrite H. now eexists.
  - reflexivity.
Qed.

(** X16 at a session that is authenticated. *)
Lemma init_session_state_keeps_witness :
  dict_find
    (init_session_state (VStr "k")
       [(list_ascii_of_string "authenticated", VBool true)])
    "authenticated" = Some (VBool true).
Proof.
  apply (proj1 (init_session_state_keeps (VStr "k")
                  [(list_ascii_of_string "authenticated", VBool true)])).
  reflexivity.
Defined.
